(** * The SharedTree [Transaction] interpreter

    A shallow embedding of [Transaction] (the class deriving from
    [GenericTransaction<Change>]): its detached-sequence registry, the
    five [apply*] methods, [createSnapshotNodesForTree],
    [getDetachedNodeIds] and [validateOnClose].

    Mutable object state ([this._view], [this.detached], and the locals
    captured by the closures of [applyBuild]) is threaded through a state
    monad whose computations may also throw; the state survives a throw,
    as the fields of a JavaScript object do. *)

From Stdlib Require Import ZArith String List Lia.
From stdpp Require Import gmap strings list fin_maps.

Local Open Scope string_scope.
Local Open Scope Z_scope.
Local Open Scope list_scope.

(** ** Identifiers ([Identifiers.ts]) *)

Abbreviation NodeId := string (only parsing).
Abbreviation TraitLabel := string (only parsing).
Abbreviation Definition_ := string (only parsing).
Abbreviation UuidString := string (only parsing).
(** A [DetachedSequenceId] is a JavaScript number. *)
Abbreviation DetachedSequenceId := Z (only parsing).
(** Payloads are opaque to the interpreter. *)
Abbreviation Payload := string (only parsing).

(** ** Results *)

Module EditResult.
Inductive t : Set := Malformed | Invalid | Applied.
End EditResult.

Module EditValidationResult.
Inductive t : Set := Valid | Malformed | Invalid.
End EditValidationResult.

#[global] Instance EditResult_eq_dec : EqDecision EditResult.t.
Proof. solve_decision. Defined.

#[global] Instance EditValidationResult_eq_dec : EqDecision EditValidationResult.t.
Proof. solve_decision. Defined.

(** ** Tree fragments and snapshot records *)

(** [EditNode]: either a [DetachedSequenceId] or an inline node. The
    [traits] object of an inline node is the list of its own enumerable
    properties in [for ... in] order. *)
Inductive EditNode : Type :=
| DetachedRef (id : DetachedSequenceId)
| TreeNode (identifier : NodeId) (definition : Definition_)
           (traits : list (TraitLabel * list EditNode))
           (payload : option Payload).

Definition isDetachedSequenceId (node : EditNode) : bool :=
  match node with DetachedRef _ => true | TreeNode _ _ _ _ => false end.

Record SnapshotNode : Type := mkSnapshotNode {
  identifier : NodeId;
  definition : Definition_;
  traits : gmap TraitLabel (list NodeId);
  payload : option Payload
}.

(** Modelled from the spec: the [Snapshot] class ([Snapshot.ts] is not part
    of the sources). An immutable mapping from [NodeId] to [SnapshotNode]
    plus a designated root; every mutator returns a new snapshot. *)
Record Snapshot : Type := mkSnapshot {
  root : NodeId;
  snapshotNodes : gmap NodeId SnapshotNode
}.

Definition hasNode (s : Snapshot) (id : NodeId) : bool :=
  bool_decide (is_Some (snapshotNodes s !! id)).

(** Modelled from the spec: [getSnapshotNode] has precondition [hasNode];
    outside of it there is no record to return. *)
Definition getSnapshotNode (s : Snapshot) (id : NodeId) : option SnapshotNode :=
  snapshotNodes s !! id.

(** Modelled from the spec: [insertSnapshotNodes] adds the nodes of [nodes]
    (none of which may already exist). *)
Definition insertSnapshotNodes (s : Snapshot) (nodes : gmap NodeId SnapshotNode)
  : Snapshot :=
  mkSnapshot (root s) (nodes ∪ snapshotNodes s).

(** Modelled from the spec: [deleteNodes] removes those nodes and nothing
    else. *)
Definition deleteNodes (s : Snapshot) (ids : list NodeId) : Snapshot :=
  mkSnapshot (root s) (foldr delete (snapshotNodes s) ids).

(** Modelled from the spec: [replaceNodeData] replaces the record for [id]. *)
Definition replaceNodeData (s : Snapshot) (id : NodeId) (node : SnapshotNode)
  : Snapshot :=
  mkSnapshot (root s) (<[id := node]> (snapshotNodes s)).

(** ** Places and ranges ([PersistedTypes.ts], not part of the sources) *)

Record TraitLocation : Type := mkTraitLocation {
  parent : NodeId;
  label : TraitLabel
}.

Inductive Side : Set := Before | After.

(** Modelled from the spec: a [StablePlace] is an anchor node plus a side,
    or a trait-endpoint sentinel with explicit parent and label. *)
Inductive StablePlace : Type :=
| SiblingPlace (referenceSibling : NodeId) (side : Side)
| TraitPlace (referenceTrait : TraitLocation) (side : Side).

Record StableRange : Type := mkStableRange {
  start : StablePlace;
  end_ : StablePlace
}.

(** A place resolved against a snapshot; the interpreter reads only its
    [trait]. *)
Record SnapshotPlace : Type := mkSnapshotPlace {
  sibling : option NodeId;
  placeSide : Side;
  trait : TraitLocation
}.

Record SnapshotRange : Type := mkSnapshotRange {
  rangeStart : SnapshotPlace;
  rangeEnd : SnapshotPlace
}.

Record DetachResult : Type := mkDetachResult {
  snapshot : Snapshot;
  detachedIds : list NodeId
}.

(** The primitives imported from [EditUtilities.ts] and the place lookup of
    [Snapshot]; none of them is part of the sources. The interpreter uses
    them as pure functions of a snapshot. *)
Class EditUtilities : Type := {
  validateStablePlace : Snapshot → StablePlace → EditValidationResult.t;
  validateStableRange : Snapshot → StableRange → EditValidationResult.t;
  rangeFromStableRange : Snapshot → StableRange → SnapshotRange;
  detachRange : Snapshot → StableRange → DetachResult;
  insertIntoTrait : Snapshot → list NodeId → StablePlace → Snapshot;
  findIndexWithinTrait : Snapshot → SnapshotPlace → Z
}.

(** ** Changes ([PersistedTypes.ts]) *)

Inductive ConstraintEffect : Set := InvalidRetry | ValidRetry.

#[global] Instance ConstraintEffect_eq_dec : EqDecision ConstraintEffect.
Proof. solve_decision. Defined.

Module Build.
Record t : Type := mk { source : list EditNode; destination : DetachedSequenceId }.
End Build.

Module Insert.
Record t : Type := mk { source : DetachedSequenceId; destination : StablePlace }.
End Insert.

Module Detach.
Record t : Type := mk { source : StableRange; destination : option DetachedSequenceId }.
End Detach.

Module Constraint.
Record t : Type := mk {
  toConstrain : StableRange;
  identityHash : option UuidString;
  length : option Z;
  contentHash : option UuidString;
  parentNode : option NodeId;
  label : option TraitLabel;
  effect : ConstraintEffect
}.
End Constraint.

(** [payload = None] is the explicit [null]. *)
Module SetValue.
Record t : Type := mk { nodeToModify : NodeId; payload : option Payload }.
End SetValue.

(** The tagged union [Change]; [ChangeType] is the constructor. The last
    constructor is a change object whose [type] is none of the five tags,
    which the [default] arm of [dispatchChange] receives. *)
Inductive Change : Type :=
| ChangeBuild (change : Build.t)
| ChangeInsert (change : Insert.t)
| ChangeDetach (change : Detach.t)
| ChangeConstraint (change : Constraint.t)
| ChangeSetValue (change : SetValue.t)
| ChangeUnsupported.

(** ** Computations over mutable state that may throw *)

Inductive completion (A : Type) : Type :=
| Normal (a : A)
| Throw (message : string)
| OutOfFuel.
Arguments Normal {A} a.
Arguments Throw {A} message.
Arguments OutOfFuel {A}.

Definition M (Σ A : Type) : Type := Σ → completion A * Σ.

Definition ret {Σ A} (a : A) : M Σ A := fun σ => (Normal a, σ).

Definition bind {Σ A B} (m : M Σ A) (k : A → M Σ B) : M Σ B :=
  fun σ =>
    match m σ with
    | (Normal a, σ') => k a σ'
    | (Throw msg, σ') => (Throw msg, σ')
    | (OutOfFuel, σ') => (OutOfFuel, σ')
    end.

Definition get {Σ} : M Σ Σ := fun σ => (Normal σ, σ).
Definition put {Σ} (σ : Σ) : M Σ unit := fun _ => (Normal tt, σ).
Definition throw {Σ A} (msg : string) : M Σ A := fun σ => (Throw msg, σ).
Definition outOfFuel {Σ A} : M Σ A := fun σ => (OutOfFuel, σ).

Declare Scope tx_scope.
Delimit Scope tx_scope with tx.
Notation "x <- c1 ;; c2" := (bind c1 (fun x => c2))
  (at level 100, c1 at next level, right associativity) : tx_scope.
Notation "c1 ;; c2" := (bind c1 (fun _ => c2))
  (at level 100, right associativity) : tx_scope.
Local Open Scope tx_scope.

(** [assert], [fail] and [assertNotUndefined] of [Common.ts]. *)
Definition assert {Σ} (condition : bool) (message : string) : M Σ unit :=
  if condition then ret tt else throw message.

Definition fail {Σ A} (message : string) : M Σ A := throw message.

Definition assertNotUndefined {Σ A} (value : option A) : M Σ A :=
  match value with
  | Some a => ret a
  | None => throw "value must not be undefined"
  end.

(** ** The transaction object *)

(** The fields of [Transaction] that [dispatchChange] reads and writes:
    [_view] (read through the getter [view]) and [detached]. *)
Record Transaction : Type := mkTransaction {
  view : Snapshot;
  detached : gmap DetachedSequenceId (list NodeId)
}.

Definition factory (snapshot : Snapshot) : Transaction :=
  mkTransaction snapshot ∅.

Definition set_view (v : Snapshot) : M Transaction unit :=
  fun this => (Normal tt, mkTransaction v (detached this)).

Definition set_detached (d : gmap DetachedSequenceId (list NodeId))
  : M Transaction unit :=
  fun this => (Normal tt, mkTransaction (view this) d).

Definition validateOnClose : M Transaction EditResult.t :=
  this <- get ;;
  if bool_decide (size (detached this) ≠ 0%nat)
  then ret EditResult.Malformed
  else ret EditResult.Applied.

(** ** Closures: the object together with the locals a closure captures *)

Section Closures.
Context {L : Type}.

(** Run a method of the object from inside a closure scope. *)
Definition onThis {A} (m : M Transaction A) : M (Transaction * L) A :=
  fun σ => let (r, this') := m (fst σ) in (r, (this', snd σ)).

Definition getLocals : M (Transaction * L) L := fun σ => (Normal (snd σ), σ).

Definition setLocals (l : L) : M (Transaction * L) unit :=
  fun σ => (Normal tt, (fst σ, l)).

(** Enter a scope with fresh locals [l], run [m], and leave the scope with
    the result and the final value of the locals. *)
Definition withLocals {A} (l : L) (m : M (Transaction * L) A)
  : M Transaction (A * L) :=
  fun this =>
    match m (this, l) with
    | (Normal a, (this', l')) => (Normal (a, l'), this')
    | (Throw msg, (this', _)) => (Throw msg, this')
    | (OutOfFuel, (this', _)) => (OutOfFuel, this')
    end.

(** [getDetachedNodeIds]: retrieve the sequence and remove it from the
    registry, or report the invalid id. *)
Definition getDetachedNodeIds (detachedId : DetachedSequenceId)
    (onInvalidDetachedId : M (Transaction * L) unit)
  : M (Transaction * L) (option (list NodeId)) :=
  this <- onThis get ;;
  match detached this !! detachedId with
  | None => onInvalidDetachedId ;; ret None
  | Some detachedNodeIds =>
      onThis (set_detached (delete detachedId (detached this))) ;;
      ret (Some detachedNodeIds)
  end.

Variable onCreateNode : NodeId → SnapshotNode → M (Transaction * L) bool.
Variable onInvalidDetachedId : M (Transaction * L) unit.

(** The body shared by [for (const editNode of sequence)] and
    [for (const child of children)]: a detached reference is expanded in
    place, an inline node is pushed on [unprocessed] and its identifier
    appended. [None] is the early [return undefined]. The array
    [unprocessed] is kept with its last element first, so that [push] is
    [cons] and [pop] takes the head. *)
Fixpoint forEachEditNode (sequence : list EditNode) (ids : list NodeId)
    (unprocessed : list EditNode)
  : M (Transaction * L) (option (list NodeId * list EditNode)) :=
  match sequence with
  | [] => ret (Some (ids, unprocessed))
  | editNode :: rest =>
      match editNode with
      | DetachedRef detachedId =>
          detachedIds <- getDetachedNodeIds detachedId onInvalidDetachedId ;;
          match detachedIds with
          | None => ret None
          | Some detachedIds => forEachEditNode rest (ids ++ detachedIds) unprocessed
          end
      | TreeNode id _ _ _ =>
          forEachEditNode rest (ids ++ [id]) (editNode :: unprocessed)
      end
  end.

(** [for (const key in node.traits)]. *)
Fixpoint forEachTrait (entries : list (TraitLabel * list EditNode))
    (traits : gmap TraitLabel (list NodeId)) (unprocessed : list EditNode)
  : M (Transaction * L) (option (gmap TraitLabel (list NodeId) * list EditNode)) :=
  match entries with
  | [] => ret (Some (traits, unprocessed))
  | (key, children) :: rest =>
      r <- forEachEditNode children [] unprocessed ;;
      match r with
      | None => ret None
      | Some (childIds, unprocessed) =>
          forEachTrait rest (<[key := childIds]> traits) unprocessed
      end
  end.

(** [while (unprocessed.length > 0)]. *)
Fixpoint whileUnprocessed (fuel : nat) (topLevelIds : list NodeId)
    (unprocessed : list EditNode) : M (Transaction * L) (option (list NodeId)) :=
  match unprocessed with
  | [] => ret (Some topLevelIds)
  | node :: unprocessed =>
      match fuel with
      | O => outOfFuel
      | S fuel =>
          match node with
          | DetachedRef _ => throw "Assertion failed"
          | TreeNode id def entries payload =>
              r <- forEachTrait entries ∅ unprocessed ;;
              match r with
              | None => ret None
              | Some (traits, unprocessed) =>
                  let newNode := mkSnapshotNode id def traits payload in
                  halt <- onCreateNode (identifier newNode) newNode ;;
                  if halt then ret None
                  else whileUnprocessed fuel topLevelIds unprocessed
              end
          end
      end
  end.

End Closures.

(** The number of inline nodes of a fragment: a bound on the iterations of
    the [while] loop. *)
Fixpoint nodeCount (node : EditNode) : nat :=
  match node with
  | DetachedRef _ => O
  | TreeNode _ _ entries _ =>
      S ((fix inTraits (es : list (TraitLabel * list EditNode)) : nat :=
            match es with
            | [] => O
            | e :: es =>
                ((fix inChildren (cs : list EditNode) : nat :=
                    match cs with
                    | [] => O
                    | c :: cs => (nodeCount c + inChildren cs)%nat
                    end) (snd e) + inTraits es)%nat
            end) entries)
  end.

Definition sequenceCount (sequence : list EditNode) : nat :=
  foldr (fun node n => (nodeCount node + n)%nat) O sequence.

Definition traitsCount (entries : list (TraitLabel * list EditNode)) : nat :=
  foldr (fun e n => (sequenceCount (snd e) + n)%nat) O entries.

Definition createSnapshotNodesForTree {L} (sequence : list EditNode)
    (onCreateNode : NodeId → SnapshotNode → M (Transaction * L) bool)
    (onInvalidDetachedId : M (Transaction * L) unit)
  : M (Transaction * L) (option (list NodeId)) :=
  r <- forEachEditNode onInvalidDetachedId sequence [] [] ;;
  match r with
  | None => ret None
  | Some (topLevelIds, unprocessed) =>
      whileUnprocessed onCreateNode onInvalidDetachedId
        (sequenceCount sequence) topLevelIds unprocessed
  end.

(** ** [applyBuild] *)

Module BuildLocals.
Record t : Type := mk {
  idAlreadyPresent : bool;
  duplicateIdInBuild : bool;
  map : gmap NodeId SnapshotNode;
  detachedSequenceNotFound : bool
}.
Definition init : t := mk false false ∅ false.
End BuildLocals.

Definition buildOnCreateNode (id : NodeId) (snapshotNode : SnapshotNode)
  : M (Transaction * BuildLocals.t) bool :=
  l <- getLocals ;;
  this <- onThis get ;;
  if bool_decide (is_Some (BuildLocals.map l !! id)) then
    setLocals (BuildLocals.mk (BuildLocals.idAlreadyPresent l) true
                 (BuildLocals.map l) (BuildLocals.detachedSequenceNotFound l)) ;;
    ret true
  else if hasNode (view this) id then
    setLocals (BuildLocals.mk true (BuildLocals.duplicateIdInBuild l)
                 (BuildLocals.map l) (BuildLocals.detachedSequenceNotFound l)) ;;
    ret true
  else
    setLocals (BuildLocals.mk (BuildLocals.idAlreadyPresent l)
                 (BuildLocals.duplicateIdInBuild l)
                 (<[id := snapshotNode]> (BuildLocals.map l))
                 (BuildLocals.detachedSequenceNotFound l)) ;;
    ret false.

Definition buildOnInvalidDetachedId : M (Transaction * BuildLocals.t) unit :=
  l <- getLocals ;;
  setLocals (BuildLocals.mk (BuildLocals.idAlreadyPresent l)
               (BuildLocals.duplicateIdInBuild l) (BuildLocals.map l) true).

Definition applyBuild (change : Build.t) : M Transaction EditResult.t :=
  this <- get ;;
  if bool_decide (is_Some (detached this !! Build.destination change)) then
    ret EditResult.Malformed
  else
    r <- withLocals BuildLocals.init
           (createSnapshotNodesForTree (Build.source change)
              buildOnCreateNode buildOnInvalidDetachedId) ;;
    let (newIds, l) := r : option (list NodeId) * BuildLocals.t in
    if BuildLocals.detachedSequenceNotFound l || BuildLocals.duplicateIdInBuild l then
      ret EditResult.Malformed
    else if BuildLocals.idAlreadyPresent l then
      ret EditResult.Invalid
    else
      this <- get ;;
      set_view (insertSnapshotNodes (view this) (BuildLocals.map l)) ;;
      newIds <- assertNotUndefined newIds ;;
      this <- get ;;
      set_detached (<[Build.destination change := newIds]> (detached this)) ;;
      ret EditResult.Applied.

(** ** The other four changes *)

Section Interpreter.
Context `{EditUtilities}.

Definition applyInsert (change : Insert.t) : M Transaction EditResult.t :=
  this <- get ;;
  match detached this !! Insert.source change with
  | None => ret EditResult.Malformed
  | Some source =>
      let destinationChangeResult :=
        validateStablePlace (view this) (Insert.destination change) in
      if bool_decide (destinationChangeResult ≠ EditValidationResult.Valid) then
        ret (if bool_decide (destinationChangeResult = EditValidationResult.Invalid)
             then EditResult.Invalid else EditResult.Malformed)
      else
        set_detached (delete (Insert.source change) (detached this)) ;;
        this <- get ;;
        set_view (insertIntoTrait (view this) source (Insert.destination change)) ;;
        ret EditResult.Applied
  end.

Definition applyDetach (change : Detach.t) : M Transaction EditResult.t :=
  this <- get ;;
  let sourceChangeResult := validateStableRange (view this) (Detach.source change) in
  if bool_decide (sourceChangeResult ≠ EditValidationResult.Valid) then
    ret (if bool_decide (sourceChangeResult = EditValidationResult.Invalid)
         then EditResult.Invalid else EditResult.Malformed)
  else
    let result := detachRange (view this) (Detach.source change) in
    let modifiedView := snapshot result in
    let detached_ := detachedIds result in
    match Detach.destination change with
    | Some destination =>
        if bool_decide (is_Some (detached this !! destination)) then
          ret EditResult.Malformed
        else
          set_detached (<[destination := detached_]> (detached this)) ;;
          set_view modifiedView ;;
          ret EditResult.Applied
    | None =>
        set_view (deleteNodes modifiedView detached_) ;;
        ret EditResult.Applied
    end.

(** [x !== undefined && x !== y] for an optional field [x]. *)
Definition definedAndDiffers {A} `{EqDecision A} (x : option A) (y : A) : bool :=
  match x with
  | Some a => bool_decide (a ≠ y)
  | None => false
  end.

Definition applyConstraint (change : Constraint.t) : M Transaction EditResult.t :=
  assert (bool_decide (Constraint.identityHash change = None))
    "identityHash constraint is not implemented" ;;
  assert (bool_decide (Constraint.contentHash change = None))
    "contentHash constraint is not implemented" ;;
  this <- get ;;
  let sourceChangeResult :=
    validateStableRange (view this) (Constraint.toConstrain change) in
  let onViolation :=
    if bool_decide (Constraint.effect change = ValidRetry)
    then EditResult.Applied else EditResult.Invalid in
  if bool_decide (sourceChangeResult ≠ EditValidationResult.Valid) then
    ret (if bool_decide (sourceChangeResult = EditValidationResult.Invalid)
         then onViolation else EditResult.Malformed)
  else
    let range := rangeFromStableRange (view this) (Constraint.toConstrain change) in
    let startIndex := findIndexWithinTrait (view this) (rangeStart range) in
    let endIndex := findIndexWithinTrait (view this) (rangeEnd range) in
    if definedAndDiffers (Constraint.length change) (endIndex - startIndex) then
      ret onViolation
    else if definedAndDiffers (Constraint.parentNode change)
              (parent (trait (rangeEnd range))) then
      ret onViolation
    else if definedAndDiffers (Constraint.label change)
              (label (trait (rangeEnd range))) then
      ret onViolation
    else
      ret EditResult.Applied.

(** [{ ...node }] followed by [delete newNode.payload] or
    [newNode.payload = payload]. *)
Definition withPayload (node : SnapshotNode) (payload : option Payload)
  : SnapshotNode :=
  match payload with
  | None => mkSnapshotNode (identifier node) (definition node) (traits node) None
  | Some p => mkSnapshotNode (identifier node) (definition node) (traits node) (Some p)
  end.

Definition applySetValue (change : SetValue.t) : M Transaction EditResult.t :=
  this <- get ;;
  if negb (hasNode (view this) (SetValue.nodeToModify change)) then
    ret EditResult.Invalid
  else
    node <- assertNotUndefined
              (getSnapshotNode (view this) (SetValue.nodeToModify change)) ;;
    let newNode := withPayload node (SetValue.payload change) in
    set_view (replaceNodeData (view this) (SetValue.nodeToModify change) newNode) ;;
    ret EditResult.Applied.

Definition dispatchChange (change : Change) : M Transaction EditResult.t :=
  match change with
  | ChangeBuild change => applyBuild change
  | ChangeInsert change => applyInsert change
  | ChangeDetach change => applyDetach change
  | ChangeConstraint change => applyConstraint change
  | ChangeSetValue change => applySetValue change
  | ChangeUnsupported => fail "Attempted to apply unsupported change"
  end.

(** ** [GenericTransaction]: [apply] and [close] *)

Inductive Status : Set := Open | Closed.

Record TransactionState : Type := mkTransactionState {
  this_ : Transaction;
  status : Status;
  outcome : EditResult.t
}.

(** Modelled from the spec: construction of a transaction over an initial
    snapshot ([GenericTransaction] is not part of the sources). *)
Definition newTransaction (initial : Snapshot) : TransactionState :=
  mkTransactionState (factory initial) Open EditResult.Applied.

(** Modelled from the spec: [apply] of [GenericTransaction]. While open it
    dispatches on the change kind; the first result other than Applied
    closes the transaction and freezes the outcome; after closure it is a
    no-op returning the terminal outcome. *)
Definition apply (change : Change) : M TransactionState EditResult.t :=
  fun st =>
    match status st with
    | Closed => (Normal (outcome st), st)
    | Open =>
        match dispatchChange change (this_ st) with
        | (Normal EditResult.Applied, this') =>
            (Normal EditResult.Applied,
             mkTransactionState this' Open EditResult.Applied)
        | (Normal result, this') =>
            (Normal result, mkTransactionState this' Closed result)
        | (Throw msg, this') =>
            (Throw msg, mkTransactionState this' (status st) (outcome st))
        | (OutOfFuel, this') =>
            (OutOfFuel, mkTransactionState this' (status st) (outcome st))
        end
    end.

Fixpoint applyChanges (changes : list Change) : M TransactionState unit :=
  match changes with
  | [] => ret tt
  | change :: rest => apply change ;; applyChanges rest
  end.

(** Modelled from the spec: [close] of [GenericTransaction]. If the
    transaction is still open it runs [validateOnClose] and takes its
    result as the outcome; it returns the outcome and, when the outcome
    is Applied, the final view. *)
Definition close : M TransactionState (EditResult.t * option Snapshot) :=
  fun st =>
    match status st with
    | Closed =>
        (Normal (outcome st,
                 if bool_decide (outcome st = EditResult.Applied)
                 then Some (view (this_ st)) else None), st)
    | Open =>
        match validateOnClose (this_ st) with
        | (Normal EditResult.Applied, this') =>
            (Normal (EditResult.Applied, Some (view this')),
             mkTransactionState this' Closed EditResult.Applied)
        | (Normal result, this') =>
            (Normal (result, None), mkTransactionState this' Closed result)
        | (Throw msg, this') =>
            (Throw msg, mkTransactionState this' (status st) (outcome st))
        | (OutOfFuel, this') =>
            (OutOfFuel, mkTransactionState this' (status st) (outcome st))
        end
    end.

End Interpreter.

(** ** The checks of a Constraint *)

Section ConstraintChecks.
Context `{EditUtilities}.

(** The result a violated constraint yields, from its [effect]. *)
Definition onViolation (change : Constraint.t) : EditResult.t :=
  match Constraint.effect change with
  | ValidRetry => EditResult.Applied
  | InvalidRetry => EditResult.Invalid
  end.

(** The three property checks of a constraint on a resolved range. *)
Definition lengthViolated (change : Constraint.t) (v : Snapshot) : Prop :=
  ∃ n, Constraint.length change = Some n ∧
       n ≠ findIndexWithinTrait v
              (rangeEnd (rangeFromStableRange v (Constraint.toConstrain change)))
            - findIndexWithinTrait v
                (rangeStart (rangeFromStableRange v (Constraint.toConstrain change))).

Definition parentViolated (change : Constraint.t) (v : Snapshot) : Prop :=
  ∃ p, Constraint.parentNode change = Some p ∧
       p ≠ parent (trait (rangeEnd
                 (rangeFromStableRange v (Constraint.toConstrain change)))).

Definition labelViolated (change : Constraint.t) (v : Snapshot) : Prop :=
  ∃ l, Constraint.label change = Some l ∧
       l ≠ label (trait (rangeEnd
                (rangeFromStableRange v (Constraint.toConstrain change)))).

End ConstraintChecks.

(** ** The traversal order of a Build *)

(** What the traversal of [createSnapshotNodesForTree] does, in order:
    it resolves a detached reference, or it creates the snapshot node of
    an inline node. *)
Inductive TraversalEvent : Type :=
| ReferTo (detachedId : DetachedSequenceId)
| Create (id : NodeId).

Definition referencesIn (sequence : list EditNode) : list DetachedSequenceId :=
  omap (fun node => match node with
                    | DetachedRef d => Some d
                    | TreeNode _ _ _ _ => None
                    end) sequence.

Definition inlineIn (sequence : list EditNode) : list EditNode :=
  List.filter (fun node => negb (isDetachedSequenceId node)) sequence.

Definition childrenIn (entries : list (TraitLabel * list EditNode)) : list EditNode :=
  concat (List.map snd entries).

(** The events of one stack entry: the references among the children of
    the node, in order; the creation of the node; then the subtrees of its
    inline children, last child first (the stack is last-in first-out). *)
Fixpoint eventsOfNode (node : EditNode) : list TraversalEvent :=
  match node with
  | DetachedRef _ => []
  | TreeNode id _ entries _ =>
      List.map ReferTo (referencesIn (childrenIn entries))
      ++ Create id ::
         (fix overTraits (es : list (TraitLabel * list EditNode))
              (after : list TraversalEvent) : list TraversalEvent :=
            match es with
            | [] => after
            | e :: es =>
                overTraits es
                  ((fix overChildren (cs : list EditNode)
                        (after : list TraversalEvent) : list TraversalEvent :=
                      match cs with
                      | [] => after
                      | c :: cs => overChildren cs (eventsOfNode c ++ after)
                      end) (snd e) after)
            end) entries []
  end.

(** The events of a stack, top first. *)
Definition eventsOfStack (unprocessed : list EditNode) : list TraversalEvent :=
  concat (List.map eventsOfNode unprocessed).

(** The events of a Build source: the top-level references, then the
    stack of top-level inline nodes, last one on top. *)
Definition buildEvents (source : list EditNode) : list TraversalEvent :=
  List.map ReferTo (referencesIn source) ++ eventsOfStack (rev source).

(** The first condition met along a list of events, and the registry at
    that point: an unresolved reference or an identifier created twice is
    Malformed, an identifier the view already has is Invalid; a resolved
    reference is removed from the registry. *)
Fixpoint firstCondition (v : Snapshot)
    (registry : gmap DetachedSequenceId (list NodeId)) (created : gset NodeId)
    (events : list TraversalEvent)
  : EditResult.t * gmap DetachedSequenceId (list NodeId) :=
  match events with
  | [] => (EditResult.Applied, registry)
  | ReferTo d :: events =>
      match registry !! d with
      | None => (EditResult.Malformed, registry)
      | Some _ => firstCondition v (delete d registry) created events
      end
  | Create id :: events =>
      if bool_decide (id ∈ created) then (EditResult.Malformed, registry)
      else if hasNode v id then (EditResult.Invalid, registry)
      else firstCondition v registry ({[id]} ∪ created) events
  end.

(** The result [applyBuild] derives from the flags its closures set. *)
Definition buildVerdict (l : BuildLocals.t) : EditResult.t :=
  if BuildLocals.detachedSequenceNotFound l || BuildLocals.duplicateIdInBuild l
  then EditResult.Malformed
  else if BuildLocals.idAlreadyPresent l then EditResult.Invalid
  else EditResult.Applied.

Definition noFlags (l : BuildLocals.t) : Prop :=
  BuildLocals.detachedSequenceNotFound l = false
  ∧ BuildLocals.duplicateIdInBuild l = false
  ∧ BuildLocals.idAlreadyPresent l = false.

(** The locals after [onInvalidDetachedId]. *)
Definition notFound (l : BuildLocals.t) : BuildLocals.t :=
  BuildLocals.mk (BuildLocals.idAlreadyPresent l) (BuildLocals.duplicateIdInBuild l)
    (BuildLocals.map l) true.

(** The identifiers a list of events creates. *)
Definition createdIn (events : list TraversalEvent) : gset NodeId :=
  list_to_set (omap (fun e => match e with
                              | Create id => Some id
                              | ReferTo _ => None
                              end) events).

(** The detached references the traversal resolves, in order, before it
    meets its first condition (all of them when it meets none). *)
Fixpoint resolvedBefore (v : Snapshot)
    (registry : gmap DetachedSequenceId (list NodeId)) (created : gset NodeId)
    (events : list TraversalEvent) : list DetachedSequenceId :=
  match events with
  | [] => []
  | ReferTo d :: events =>
      match registry !! d with
      | None => []
      | Some _ => d :: resolvedBefore v (delete d registry) created events
      end
  | Create id :: events =>
      if bool_decide (id ∈ created) then []
      else if hasNode v id then []
      else resolvedBefore v registry ({[id]} ∪ created) events
  end.

(** The references a Build resolves before it halts: none when its
    destination is taken, since the traversal does not start. *)
Definition resolvedByBuild (this : Transaction) (change : Build.t)
  : list DetachedSequenceId :=
  match detached this !! Build.destination change with
  | Some _ => []
  | None =>
      resolvedBefore (view this) (detached this) ∅
        (buildEvents (Build.source change))
  end.

(** ** A host for the collaborator contracts

    A small implementation of the primitives over the snapshot model, used
    to run the interpreter on concrete inputs. Its classification table: a
    place anchored at the empty identifier is Malformed; a place anchored
    at a node that is absent or unparented, or at a trait whose parent is
    absent, is Invalid; a range whose ends lie in different traits is
    Invalid; a range that ends before it starts is Malformed. *)

Module SampleHost.

Definition childrenOf (s : Snapshot) (loc : TraitLocation) : list NodeId :=
  match snapshotNodes s !! parent loc with
  | Some node => default [] (traits node !! label loc)
  | None => []
  end.

Definition traitsContaining (id : NodeId) (node : SnapshotNode) : list TraitLocation :=
  omap (fun e : TraitLabel * list NodeId =>
          if bool_decide (id ∈ e.2)
          then Some (mkTraitLocation (identifier node) e.1) else None)
       (map_to_list (traits node)).

Definition parentOf (s : Snapshot) (id : NodeId) : option TraitLocation :=
  head (concat (List.map (fun e : NodeId * SnapshotNode => traitsContaining id e.2)
                  (map_to_list (snapshotNodes s)))).

Fixpoint indexOf (id : NodeId) (ids : list NodeId) : nat :=
  match ids with
  | [] => O
  | x :: ids => if bool_decide (x = id) then O else S (indexOf id ids)
  end.

Definition resolve (s : Snapshot) (place : StablePlace) : SnapshotPlace :=
  match place with
  | SiblingPlace id side =>
      mkSnapshotPlace (Some id) side
        (default (mkTraitLocation (root s) "") (parentOf s id))
  | TraitPlace loc side => mkSnapshotPlace None side loc
  end.

Definition indexWithinTrait (s : Snapshot) (place : SnapshotPlace) : Z :=
  let children := childrenOf s (trait place) in
  match sibling place, placeSide place with
  | Some id, Before => Z.of_nat (indexOf id children)
  | Some id, After => Z.of_nat (S (indexOf id children))
  | None, After => 0
  | None, Before => Z.of_nat (List.length children)
  end.

Definition validatePlace (s : Snapshot) (place : StablePlace)
  : EditValidationResult.t :=
  match place with
  | SiblingPlace id _ =>
      if bool_decide (id = "") then EditValidationResult.Malformed
      else if hasNode s id && bool_decide (is_Some (parentOf s id))
      then EditValidationResult.Valid else EditValidationResult.Invalid
  | TraitPlace loc _ =>
      if hasNode s (parent loc)
      then EditValidationResult.Valid else EditValidationResult.Invalid
  end.

Definition sameTrait (a b : TraitLocation) : bool :=
  bool_decide (parent a = parent b) && bool_decide (label a = label b).

Definition validateRange (s : Snapshot) (range : StableRange)
  : EditValidationResult.t :=
  match validatePlace s (start range), validatePlace s (end_ range) with
  | EditValidationResult.Valid, EditValidationResult.Valid =>
      let a := resolve s (start range) in
      let b := resolve s (end_ range) in
      if negb (sameTrait (trait a) (trait b)) then EditValidationResult.Invalid
      else if Z.ltb (indexWithinTrait s b) (indexWithinTrait s a)
           then EditValidationResult.Malformed
           else EditValidationResult.Valid
  | EditValidationResult.Valid, r => r
  | r, _ => r
  end.

Definition setChildren (s : Snapshot) (loc : TraitLocation) (ids : list NodeId)
  : Snapshot :=
  match snapshotNodes s !! parent loc with
  | Some node =>
      replaceNodeData s (parent loc)
        (mkSnapshotNode (identifier node) (definition node)
           (<[label loc := ids]> (traits node)) (payload node))
  | None => s
  end.

Definition detach (s : Snapshot) (range : StableRange) : DetachResult :=
  let a := resolve s (start range) in
  let b := resolve s (end_ range) in
  let i := Z.to_nat (indexWithinTrait s a) in
  let j := Z.to_nat (indexWithinTrait s b) in
  let children := childrenOf s (trait a) in
  mkDetachResult
    (setChildren s (trait a) (take i children ++ drop j children))
    (take (j - i) (drop i children)).

Definition insert (s : Snapshot) (ids : list NodeId) (place : StablePlace)
  : Snapshot :=
  let p := resolve s place in
  let i := Z.to_nat (indexWithinTrait s p) in
  let children := childrenOf s (trait p) in
  setChildren s (trait p) (take i children ++ ids ++ drop i children).

#[export] Instance host : EditUtilities := {|
  validateStablePlace := validatePlace;
  validateStableRange := validateRange;
  rangeFromStableRange := fun s range =>
    mkSnapshotRange (resolve s (start range)) (resolve s (end_ range));
  detachRange := detach;
  insertIntoTrait := insert;
  findIndexWithinTrait := indexWithinTrait
|}.

(** Concrete snapshots: a root [R] with an empty trait [L], and a root with
    the trait [A; B; C]. *)
Definition leaf (id : NodeId) : SnapshotNode := mkSnapshotNode id "D" ∅ None.

Definition emptyTree : Snapshot :=
  mkSnapshot "R" {[ "R" := mkSnapshotNode "R" "D" ∅ None ]}.

Definition abcTree : Snapshot :=
  mkSnapshot "R"
    (<["R" := mkSnapshotNode "R" "D" {[ "L" := ["A"; "B"; "C"] ]} None]>
       (<["A" := leaf "A"]> (<["B" := leaf "B"]> {[ "C" := leaf "C" ]}))).

Definition RL : TraitLocation := mkTraitLocation "R" "L".
Definition startOfRL : StablePlace := TraitPlace RL After.
Definition endOfRL : StablePlace := TraitPlace RL Before.
Definition rangeOf (id : NodeId) : StableRange :=
  mkStableRange (SiblingPlace id Before) (SiblingPlace id After).
Definition fullRL : StableRange := mkStableRange startOfRL endOfRL.

End SampleHost.

(** ** Concrete runs *)

Module Runs.
Import SampleHost.

Definition N : EditNode := TreeNode "N" "D" [] None.
Definition A : EditNode := TreeNode "A" "D" [] None.
Definition M' : EditNode := TreeNode "M" "D" [] None.

(** The transaction after [Build([N], 1)] on the tree [A; B; C]. *)
Definition afterBuildN : Transaction :=
  (dispatchChange (ChangeBuild (Build.mk [N] 1)) (factory abcTree)).2.

(** A range that ends before it starts: Malformed for the host. *)
Definition backwards : StableRange := mkStableRange endOfRL startOfRL.

Definition hashed : Constraint.t :=
  Constraint.mk backwards (Some "h") None None None None InvalidRetry.

Definition lengthFive (effect : ConstraintEffect) : Constraint.t :=
  Constraint.mk fullRL None (Some 5) None None None effect.

(** The state after [Build([], 1)] and a SetValue on an absent node. *)
Definition failedWithEntry : TransactionState :=
  (applyChanges [ChangeBuild (Build.mk [] 1);
                 ChangeSetValue (SetValue.mk "Z" None)]
     (newTransaction abcTree)).2.

(** Apply the changes to a new transaction over [s], then close. *)
Definition closed (changes : list Change) (s : Snapshot) : TransactionState :=
  (close (applyChanges changes (newTransaction s)).2).2.

Definition buildN : Change := ChangeBuild (Build.mk [N] 1).

End Runs.

(** ** What a Build creates *)

(** The ids a sequence contributes to a child list: a detached reference
    expands to the sequence registered under it, an inline node gives its
    identifier. *)
Definition expandIds (registry : gmap DetachedSequenceId (list NodeId))
    (sequence : list EditNode) : list NodeId :=
  concat (List.map (fun node =>
                      match node with
                      | DetachedRef d => default [] (registry !! d)
                      | TreeNode id _ _ _ => [id]
                      end) sequence).

(** The [traits] map of the snapshot node of an inline node: one
    [traits.set(key, childIds)] per entry, in order. *)
Definition traitsOf (registry : gmap DetachedSequenceId (list NodeId))
    (entries : list (TraitLabel * list EditNode)) : gmap TraitLabel (list NodeId) :=
  foldl (fun m e => <[e.1 := expandIds registry e.2]> m) ∅ entries.

(** The [newNode] record of an inline node. *)
Definition snapshotNodeOf (registry : gmap DetachedSequenceId (list NodeId))
    (node : EditNode) : option SnapshotNode :=
  match node with
  | DetachedRef _ => None
  | TreeNode id def entries p =>
      Some (mkSnapshotNode id def (traitsOf registry entries) p)
  end.

(** [Occurs node sequence]: the node is an element of the sequence or of
    the children of an inline node occurring in it, at any depth. *)
Inductive Occurs (node : EditNode) : list EditNode → Prop :=
| occurs_here sequence : node ∈ sequence → Occurs node sequence
| occurs_below id def entries p sequence :
    Occurs (TreeNode id def entries p) sequence →
    node ∈ childrenIn entries →
    Occurs node sequence.

(** The identifiers of the inline nodes of a fragment, at any depth. *)
Fixpoint identifiersWithin (node : EditNode) : list NodeId :=
  match node with
  | DetachedRef _ => []
  | TreeNode id _ entries _ =>
      id :: (fix overTraits (es : list (TraitLabel * list EditNode)) : list NodeId :=
               match es with
               | [] => []
               | e :: es =>
                   (fix overChildren (cs : list EditNode) : list NodeId :=
                      match cs with
                      | [] => []
                      | c :: cs => identifiersWithin c ++ overChildren cs
                      end) (snd e) ++ overTraits es
               end) entries
  end.

(** The detached references of a fragment, at any depth. *)
Fixpoint referencesWithin (node : EditNode) : list DetachedSequenceId :=
  match node with
  | DetachedRef d => [d]
  | TreeNode _ _ entries _ =>
      (fix overTraits (es : list (TraitLabel * list EditNode))
         : list DetachedSequenceId :=
         match es with
         | [] => []
         | e :: es =>
             (fix overChildren (cs : list EditNode) : list DetachedSequenceId :=
                match cs with
                | [] => []
                | c :: cs => referencesWithin c ++ overChildren cs
                end) (snd e) ++ overTraits es
         end) entries
  end.

Definition allIdentifiers (sequence : list EditNode) : list NodeId :=
  concat (List.map identifiersWithin sequence).

Definition allReferences (sequence : list EditNode) : list DetachedSequenceId :=
  concat (List.map referencesWithin sequence).

(** The references and the creations of a list of events, in order. *)
Definition referencesOf (events : list TraversalEvent) : list DetachedSequenceId :=
  omap (fun e => match e with ReferTo d => Some d | Create _ => None end) events.

Definition creationsOf (events : list TraversalEvent) : list NodeId :=
  omap (fun e => match e with Create id => Some id | ReferTo _ => None end) events.

(** The object keeps its view and only loses registry entries. *)
Definition shrinks (this this' : Transaction) : Prop :=
  view this' = view this ∧ detached this' ⊆ detached this.

(** The object keeps its view and has lost exactly the registry entries
    [resolved], each of which it held and none of which is listed twice;
    every other entry is unchanged. *)
Definition resolves (this this' : Transaction)
    (resolved : list DetachedSequenceId) : Prop :=
  view this' = view this
  ∧ (∀ d, detached this' !! d
          = if bool_decide (d ∈ resolved) then None else detached this !! d)
  ∧ (∀ d, d ∈ resolved → is_Some (detached this !! d))
  ∧ NoDup resolved.

(** Every id held in the registry names a node of the view. *)
Definition registryInView (this : Transaction) : Prop :=
  ∀ d ids id, detached this !! d = Some ids → id ∈ ids →
              hasNode (view this) id = true.

(** ** Further concrete runs *)

Module MoreRuns.
Import SampleHost Runs.

(** An inline node with an inline child and a reference to sequence 1. *)
Definition P : EditNode :=
  TreeNode "P" "D" [("L", [M'; DetachedRef 1])] (Some "x").

Definition buildP : Build.t := Build.mk [P] 2.

(** The transaction after [Build([N], 1)] and [Build([P], 2)]. *)
Definition afterBuildP : Transaction :=
  (dispatchChange (ChangeBuild buildP) afterBuildN).2.

Definition setA (p : Payload) : SetValue.t := SetValue.mk "A" (Some p).
Definition setB (p : Payload) : SetValue.t := SetValue.mk "B" (Some p).

Definition insertN : Insert.t := Insert.mk 1 startOfRL.

Definition detachB : Detach.t := Detach.mk (rangeOf "B") None.

End MoreRuns.

(** * Properties *)

(** ** Running computations *)

Lemma bind_run {Σ A B} (m : M Σ A) (k : A → M Σ B) (σ : Σ) :
  bind m k σ =
  match m σ with
  | (Normal a, σ') => k a σ'
  | (Throw msg, σ') => (Throw msg, σ')
  | (OutOfFuel, σ') => (OutOfFuel, σ')
  end.
Proof. reflexivity. Qed.

Lemma bind_normal {Σ A B} (m : M Σ A) (k : A → M Σ B) σ a σ' :
  m σ = (Normal a, σ') → bind m k σ = k a σ'.
Proof. intros E. unfold bind. by rewrite E. Qed.

Lemma bind_inv_normal {Σ A B} (m : M Σ A) (k : A → M Σ B) σ b σ'' :
  bind m k σ = (Normal b, σ'') →
  ∃ a σ', m σ = (Normal a, σ') ∧ k a σ' = (Normal b, σ'').
Proof.
  unfold bind. destruct (m σ) as [[a | msg |] σ']; intros E; try discriminate.
  by exists a, σ'.
Qed.

Ltac run :=
  cbv [bind ret get put throw assert assertNotUndefined set_view set_detached
       onThis getLocals setLocals]; cbn [fst snd view detached].

Ltac decided :=
  repeat first
    [ rewrite bool_decide_eq_true_2 by (first [done | congruence])
    | rewrite bool_decide_eq_false_2 by (first [done | congruence | by intros []]) ].

(** ** Snapshot model *)

Lemma hasNode_true (s : Snapshot) (id : NodeId) :
  hasNode s id = true ↔ is_Some (snapshotNodes s !! id).
Proof. unfold hasNode. apply bool_decide_eq_true. Qed.

Lemma hasNode_false (s : Snapshot) (id : NodeId) :
  hasNode s id = false ↔ snapshotNodes s !! id = None.
Proof.
  unfold hasNode. rewrite bool_decide_eq_false. symmetry; apply eq_None_not_Some.
Qed.

Lemma insertSnapshotNodes_empty (s : Snapshot) : insertSnapshotNodes s ∅ = s.
Proof.
  destruct s as [r nodes]. unfold insertSnapshotNodes. cbn.
  by rewrite (left_id_L ∅ (∪)).
Qed.

Lemma lookup_foldr_delete {V} (m : gmap string V) (ids : list string) (id : string) :
  foldr delete m ids !! id = if bool_decide (id ∈ ids) then None else m !! id.
Proof.
  induction ids as [| x ids IH]; cbn.
  - rewrite bool_decide_eq_false_2; [done | set_solver].
  - destruct (decide (x = id)) as [-> | Hne].
    + rewrite lookup_delete_eq. rewrite bool_decide_eq_true_2; [done | set_solver].
    + rewrite lookup_delete_ne by done. rewrite IH.
      destruct (bool_decide (id ∈ ids)) eqn:E.
      * apply bool_decide_eq_true in E.
        rewrite bool_decide_eq_true_2; [done | set_solver].
      * apply bool_decide_eq_false in E.
        rewrite bool_decide_eq_false_2; [done | set_solver].
Qed.

Lemma hasNode_deleteNodes (s : Snapshot) (ids : list NodeId) (id : NodeId) :
  hasNode (deleteNodes s ids) id = negb (bool_decide (id ∈ ids)) && hasNode s id.
Proof.
  unfold hasNode, deleteNodes. cbn. rewrite lookup_foldr_delete.
  by destruct (bool_decide (id ∈ ids)).
Qed.

Lemma getSnapshotNode_replaceNodeData (s : Snapshot) id node id' :
  getSnapshotNode (replaceNodeData s id node) id' =
  if decide (id = id') then Some node else getSnapshotNode s id'.
Proof. unfold getSnapshotNode, replaceNodeData. cbn. apply lookup_insert. Qed.

(** ** Registry size *)

Lemma registry_nonempty (d : gmap Z (list string)) :
  bool_decide (size d ≠ 0%nat) = bool_decide (d ≠ ∅).
Proof. apply bool_decide_ext. by rewrite map_size_empty_iff. Qed.

Lemma validateOnClose_run (this : Transaction) :
  validateOnClose this =
  (Normal (if bool_decide (detached this ≠ ∅)
           then EditResult.Malformed else EditResult.Applied), this).
Proof.
  unfold validateOnClose. run. rewrite registry_nonempty.
  by destruct (bool_decide (detached this ≠ ∅)).
Qed.

(** ** Insert, Detach, Constraint, SetValue *)

Section InterpreterFacts.
Context `{EditUtilities}.

(** C4. Insert: a source that is not a key of the registry gives Malformed;
    with the source present, a destination that does not validate gives
    its classification (Invalid or Malformed); otherwise the source is
    removed from the registry, the view becomes [insertIntoTrait] of the
    stored sequence at the destination, and the result is Applied. *)
Theorem applyInsert_cases (change : Insert.t) (this : Transaction) :
  (detached this !! Insert.source change = None →
   dispatchChange (ChangeInsert change) this = (Normal EditResult.Malformed, this))
  ∧ (∀ ids, detached this !! Insert.source change = Some ids →
     (validateStablePlace (view this) (Insert.destination change)
        = EditValidationResult.Invalid →
      dispatchChange (ChangeInsert change) this = (Normal EditResult.Invalid, this))
     ∧ (validateStablePlace (view this) (Insert.destination change)
          = EditValidationResult.Malformed →
        dispatchChange (ChangeInsert change) this
          = (Normal EditResult.Malformed, this))
     ∧ (validateStablePlace (view this) (Insert.destination change)
          = EditValidationResult.Valid →
        dispatchChange (ChangeInsert change) this
          = (Normal EditResult.Applied,
             mkTransaction
               (insertIntoTrait (view this) ids (Insert.destination change))
               (delete (Insert.source change) (detached this))))).
Proof.
  cbn [dispatchChange]. unfold applyInsert. split.
  - intros E. run. by rewrite E.
  - intros ids E. run. rewrite E.
    repeat split; intros V; rewrite V; by decided.
Qed.

(** C5. Detach of a range that validates as Valid: an occupied destination
    gives Malformed; a fresh destination receives the removed id sequence,
    the view becomes the residual snapshot of [detachRange] with no record
    deleted, and the result is Applied; with no destination the removed
    nodes are deleted from the snapshot, [hasNode] is false for each of
    them, and the result is Applied. *)
Theorem applyDetach_valid_range (change : Detach.t) (this : Transaction) :
  validateStableRange (view this) (Detach.source change)
    = EditValidationResult.Valid →
  let result := detachRange (view this) (Detach.source change) in
  (∀ destination, Detach.destination change = Some destination →
     (is_Some (detached this !! destination) →
      dispatchChange (ChangeDetach change) this
        = (Normal EditResult.Malformed, this))
     ∧ (detached this !! destination = None →
        dispatchChange (ChangeDetach change) this
          = (Normal EditResult.Applied,
             mkTransaction (snapshot result)
               (<[destination := detachedIds result]> (detached this)))
        ∧ ∀ id, hasNode (snapshot result) id = true →
                hasNode (view (dispatchChange (ChangeDetach change) this).2) id
                  = true))
  ∧ (Detach.destination change = None →
     dispatchChange (ChangeDetach change) this
       = (Normal EditResult.Applied,
          mkTransaction (deleteNodes (snapshot result) (detachedIds result))
            (detached this))
     ∧ ∀ id, id ∈ detachedIds result →
             hasNode (view (dispatchChange (ChangeDetach change) this).2) id
               = false).
Proof.
  intros V result. cbn [dispatchChange]. unfold applyDetach. run. rewrite V.
  decided. subst result. split.
  - intros destination ->. split.
    + intros Hocc. by decided.
    + intros Hfresh. rewrite Hfresh. decided.
      split; [reflexivity | intros id Hid; exact Hid].
  - intros ->. split; [reflexivity |].
    intros id Hid. cbn. rewrite hasNode_deleteNodes. by decided.
Qed.

(** C6. A Constraint never changes the view, whatever its result; the
    whole transaction object is left as it was, also when an assertion
    fires. *)
Theorem applyConstraint_view_unchanged (change : Constraint.t) (this : Transaction) :
  view (dispatchChange (ChangeConstraint change) this).2 = view this
  ∧ (dispatchChange (ChangeConstraint change) this).2 = this.
Proof.
  assert ((dispatchChange (ChangeConstraint change) this).2 = this) as E.
  { cbn [dispatchChange]. unfold applyConstraint. run.
    repeat (match goal with |- context [if ?b then _ else _] => destruct b end;
            cbn; try reflexivity). }
  by rewrite E.
Qed.

Lemma definedAndDiffers_true {A} `{EqDecision A} (x : option A) (y : A) :
  definedAndDiffers x y = true ↔ ∃ a, x = Some a ∧ a ≠ y.
Proof.
  unfold definedAndDiffers. destruct x as [a |].
  - rewrite bool_decide_eq_true. split; [eauto | by intros (? & [= ->] & ?)].
  - split; [done | by intros (? & ? & ?)].
Qed.

Lemma definedAndDiffers_false {A} `{EqDecision A} (x : option A) (y : A) :
  definedAndDiffers x y = false ↔ ¬ ∃ a, x = Some a ∧ a ≠ y.
Proof.
  rewrite <- definedAndDiffers_true. by destruct (definedAndDiffers x y).
Qed.

(** C7 (amended). For a Constraint whose [identityHash] and [contentHash]
    are both absent: a range that validates as Malformed gives Malformed
    whatever the effect; a violation (the range validating as Invalid, or
    a failing length, parentNode or label check) gives Applied under
    ValidRetry and Invalid under InvalidRetry; with no violation the
    result is Applied. *)
Theorem applyConstraint_cases (change : Constraint.t) (this : Transaction) :
  Constraint.identityHash change = None →
  Constraint.contentHash change = None →
  let v := validateStableRange (view this) (Constraint.toConstrain change) in
  (v = EditValidationResult.Malformed →
   dispatchChange (ChangeConstraint change) this
     = (Normal EditResult.Malformed, this))
  ∧ (v = EditValidationResult.Invalid →
     dispatchChange (ChangeConstraint change) this
       = (Normal (onViolation change), this))
  ∧ (v = EditValidationResult.Valid →
     lengthViolated change (view this) ∨ parentViolated change (view this)
       ∨ labelViolated change (view this) →
     dispatchChange (ChangeConstraint change) this
       = (Normal (onViolation change), this))
  ∧ (v = EditValidationResult.Valid →
     ¬ lengthViolated change (view this) → ¬ parentViolated change (view this) →
     ¬ labelViolated change (view this) →
     dispatchChange (ChangeConstraint change) this
       = (Normal EditResult.Applied, this))
  ∧ (onViolation change =
       if bool_decide (Constraint.effect change = ValidRetry)
       then EditResult.Applied else EditResult.Invalid).
Proof.
  intros Hi Hc v. subst v. cbn [dispatchChange]. unfold applyConstraint.
  rewrite Hi, Hc. run. decided. cbn iota beta.
  assert ((if bool_decide (Constraint.effect change = ValidRetry)
           then EditResult.Applied else EditResult.Invalid)
          = onViolation change) as ->.
  { unfold onViolation. by destruct (Constraint.effect change). }
  repeat split.
  - intros ->. by decided.
  - intros ->. by decided.
  - intros -> Hv. decided.
    destruct (definedAndDiffers (Constraint.length change) _) eqn:El; [done |].
    destruct (definedAndDiffers (Constraint.parentNode change) _) eqn:Ep; [done |].
    destruct (definedAndDiffers (Constraint.label change) _) eqn:Ea; [done |].
    apply definedAndDiffers_false in El, Ep, Ea.
    unfold lengthViolated, parentViolated, labelViolated in Hv. tauto.
  - intros -> Hl Hp Ha. decided.
    apply definedAndDiffers_false in Hl, Hp, Ha. by rewrite Hl, Hp, Ha.
Qed.

(** C8. SetValue on a node the view does not contain gives Invalid and
    changes nothing. Otherwise the result is Applied, the registry is
    untouched, and the view is the prior view with the record of that node
    alone replaced: the new record has no payload after the explicit null,
    has the given payload otherwise, and keeps the identifier, definition
    and traits of the old record. *)
Theorem applySetValue_cases (change : SetValue.t) (this : Transaction) :
  (hasNode (view this) (SetValue.nodeToModify change) = false →
   dispatchChange (ChangeSetValue change) this = (Normal EditResult.Invalid, this))
  ∧ (hasNode (view this) (SetValue.nodeToModify change) = true →
     ∃ node newNode,
       getSnapshotNode (view this) (SetValue.nodeToModify change) = Some node
       ∧ dispatchChange (ChangeSetValue change) this
           = (Normal EditResult.Applied,
              mkTransaction
                (replaceNodeData (view this) (SetValue.nodeToModify change) newNode)
                (detached this))
       ∧ (SetValue.payload change = None → payload newNode = None)
       ∧ (∀ p, SetValue.payload change = Some p → payload newNode = Some p)
       ∧ identifier newNode = identifier node
       ∧ definition newNode = definition node
       ∧ traits newNode = traits node
       ∧ getSnapshotNode
           (replaceNodeData (view this) (SetValue.nodeToModify change) newNode)
           (SetValue.nodeToModify change) = Some newNode
       ∧ (∀ id, id ≠ SetValue.nodeToModify change →
            getSnapshotNode
              (replaceNodeData (view this) (SetValue.nodeToModify change) newNode) id
            = getSnapshotNode (view this) id)
       ∧ root (replaceNodeData (view this) (SetValue.nodeToModify change) newNode)
         = root (view this)).
Proof.
  cbn [dispatchChange]. unfold applySetValue. split.
  - intros E. run. by rewrite E.
  - intros E. run. rewrite E. cbn [negb].
    apply hasNode_true in E as [node Hnode].
    exists node, (withPayload node (SetValue.payload change)).
    unfold getSnapshotNode at 1 2. rewrite Hnode.
    repeat split.
    + intros ->. reflexivity.
    + intros p ->. reflexivity.
    + by destruct (SetValue.payload change).
    + by destruct (SetValue.payload change).
    + by destruct (SetValue.payload change).
    + rewrite getSnapshotNode_replaceNodeData. by rewrite decide_True.
    + intros id Hne. rewrite getSnapshotNode_replaceNodeData.
      by rewrite decide_False.
Qed.

(** C9. A Constraint carrying [identityHash] or [contentHash] makes the
    interpreter throw an assertion failure instead of returning an
    [EditResult]; with both absent no assertion fires and
    [applyConstraint] returns an [EditResult]. *)
Theorem applyConstraint_hash_assertions (change : Constraint.t) (this : Transaction) :
  (Constraint.identityHash change ≠ None ∨ Constraint.contentHash change ≠ None →
   ∃ msg, dispatchChange (ChangeConstraint change) this = (Throw msg, this))
  ∧ (Constraint.identityHash change = None →
     Constraint.contentHash change = None →
     ∃ result, dispatchChange (ChangeConstraint change) this = (Normal result, this)).
Proof.
  cbn [dispatchChange]. unfold applyConstraint. split.
  - intros Hhash. run.
    destruct (Constraint.identityHash change) as [h |] eqn:Ei.
    + decided. eauto.
    + destruct (Constraint.contentHash change) as [h |] eqn:Ec.
      * decided. eauto.
      * by destruct Hhash.
  - intros -> ->. run. decided. cbn iota beta.
    repeat (match goal with |- context [if ?b then _ else _] => destruct b end;
            eauto).
Qed.

(** C1 (amended). Closing a transaction none of whose changes failed (it is
    still open): with a non-empty registry the outcome is Malformed, with
    an empty registry it stays Applied. [validateOnClose] itself answers
    Malformed exactly when the registry is non-empty. *)
Theorem close_open_transaction (st : TransactionState) :
  status st = Open →
  (detached (this_ st) ≠ ∅ →
   validateOnClose (this_ st) = (Normal EditResult.Malformed, this_ st)
   ∧ close st = (Normal (EditResult.Malformed, None),
                 mkTransactionState (this_ st) Closed EditResult.Malformed))
  ∧ (detached (this_ st) = ∅ →
     validateOnClose (this_ st) = (Normal EditResult.Applied, this_ st)
     ∧ close st = (Normal (EditResult.Applied, Some (view (this_ st))),
                   mkTransactionState (this_ st) Closed EditResult.Applied)).
Proof.
  intros Hopen. unfold close. rewrite Hopen, validateOnClose_run. split.
  - intros Hne. by decided.
  - intros He. rewrite He. by decided.
Qed.

(** C10. A Build with an empty source and a fresh destination is Applied,
    leaves the view as it was, and records the empty id sequence under the
    destination; closing with that entry unconsumed gives Malformed. *)
Theorem applyBuild_empty_source (change : Build.t) (this : Transaction) :
  Build.source change = [] →
  detached this !! Build.destination change = None →
  let this' := mkTransaction (view this)
                 (<[Build.destination change := []]> (detached this)) in
  dispatchChange (ChangeBuild change) this = (Normal EditResult.Applied, this')
  ∧ detached this' !! Build.destination change = Some []
  ∧ validateOnClose this' = (Normal EditResult.Malformed, this')
  ∧ (close (mkTransactionState this' Open EditResult.Applied)).1
    = Normal (EditResult.Malformed, None).
Proof.
  intros Hsrc Hfresh this'. subst this'.
  assert (<[Build.destination change := []]> (detached this) ≠ ∅) as Hne
    by apply insert_non_empty.
  repeat split.
  - cbn [dispatchChange]. unfold applyBuild. run. rewrite Hfresh, Hsrc. decided.
    cbn. by rewrite insertSnapshotNodes_empty.
  - cbn. apply lookup_insert_eq.
  - rewrite validateOnClose_run. cbn [detached]. by decided.
  - unfold close. cbn [status this_]. rewrite validateOnClose_run.
    cbn [detached]. by decided.
Qed.

End InterpreterFacts.

(** *** Counting and ordering lemmas *)

Lemma nodeCount_TreeNode id def entries p :
  nodeCount (TreeNode id def entries p) = S (traitsCount entries).
Proof. reflexivity. Qed.

Lemma sequenceCount_app (xs ys : list EditNode) :
  sequenceCount (xs ++ ys) = (sequenceCount xs + sequenceCount ys)%nat.
Proof.
  unfold sequenceCount. induction xs as [| x xs IH]; cbn; [done |].
  rewrite IH. lia.
Qed.

Lemma sequenceCount_rev (xs : list EditNode) :
  sequenceCount (rev xs) = sequenceCount xs.
Proof.
  induction xs as [| x xs IH]; [done |].
  cbn [rev]. rewrite sequenceCount_app, IH. cbn. unfold sequenceCount. cbn. lia.
Qed.

Lemma sequenceCount_inlineIn (xs : list EditNode) :
  sequenceCount (inlineIn xs) = sequenceCount xs.
Proof.
  unfold sequenceCount.
  induction xs as [| [d | id def es p] xs IH]; cbn; [done | done |].
  fold (inlineIn xs). by rewrite IH.
Qed.

Lemma traitsCount_children (entries : list (TraitLabel * list EditNode)) :
  traitsCount entries = sequenceCount (childrenIn entries).
Proof.
  unfold traitsCount, childrenIn.
  induction entries as [| [key cs] entries IH]; cbn; [done |].
  by rewrite sequenceCount_app, IH.
Qed.

Lemma eventsOfStack_app (xs ys : list EditNode) :
  eventsOfStack (xs ++ ys) = eventsOfStack xs ++ eventsOfStack ys.
Proof. unfold eventsOfStack. by rewrite map_app, concat_app. Qed.

Lemma eventsOfStack_cons (x : EditNode) (xs : list EditNode) :
  eventsOfStack (x :: xs) = eventsOfNode x ++ eventsOfStack xs.
Proof. reflexivity. Qed.

Lemma eventsOfStack_inlineIn (xs : list EditNode) :
  eventsOfStack (inlineIn xs) = eventsOfStack xs.
Proof.
  induction xs as [| [d | id def es p] xs IH]; [done | exact IH |].
  cbn [inlineIn List.filter isDetachedSequenceId negb]. fold (inlineIn xs).
  by rewrite !eventsOfStack_cons, IH.
Qed.

Lemma inlineIn_rev (xs : list EditNode) : inlineIn (rev xs) = rev (inlineIn xs).
Proof.
  unfold inlineIn. induction xs as [| x xs IH]; [done |].
  cbn [rev List.filter]. rewrite List.filter_app, IH. cbn [List.filter].
  by destruct (negb (isDetachedSequenceId x)); cbn; [| rewrite app_nil_r].
Qed.

Lemma eventsOfNode_TreeNode id def entries p :
  eventsOfNode (TreeNode id def entries p) =
  List.map ReferTo (referencesIn (childrenIn entries))
  ++ Create id :: eventsOfStack (rev (inlineIn (childrenIn entries))).
Proof.
  cbn [eventsOfNode]. do 2 f_equal.
  rewrite <- inlineIn_rev, eventsOfStack_inlineIn.
  rewrite <- (app_nil_r (eventsOfStack _)). generalize (@nil TraversalEvent).
  induction entries as [| [key children] entries IH]; intros after; [done |].
  rewrite IH. unfold childrenIn. cbn [List.map concat snd].
  rewrite rev_app_distr, eventsOfStack_app, <- app_assoc. f_equal.
  clear IH. revert after.
  induction children as [| c cs IH]; intros after; [done |].
  rewrite IH. cbn [rev]. rewrite eventsOfStack_app, <- app_assoc. f_equal.
  rewrite eventsOfStack_cons. unfold eventsOfStack. cbn. by rewrite app_nil_r.
Qed.

(** *** The first condition along references *)

Lemma firstCondition_refs v registry created refs rest :
  firstCondition v registry created (List.map ReferTo refs ++ rest) =
  match firstCondition v registry ∅ (List.map ReferTo refs) with
  | (EditResult.Applied, registry') => firstCondition v registry' created rest
  | (_, registry') => (EditResult.Malformed, registry')
  end.
Proof.
  revert registry. induction refs as [| d refs IH]; intros registry; [done |].
  cbn [List.map app firstCondition].
  destruct (registry !! d); [apply IH | done].
Qed.

Lemma firstCondition_refs_app v registry refs refs' :
  firstCondition v registry ∅ (List.map ReferTo (refs ++ refs')) =
  match firstCondition v registry ∅ (List.map ReferTo refs) with
  | (EditResult.Applied, registry') =>
      firstCondition v registry' ∅ (List.map ReferTo refs')
  | (_, registry') => (EditResult.Malformed, registry')
  end.
Proof. rewrite map_app. apply firstCondition_refs. Qed.

Lemma firstCondition_subseteq v events : ∀ registry created,
  (firstCondition v registry created events).2 ⊆ registry.
Proof.
  induction events as [| [d | id] events IH]; intros registry created;
    cbn [firstCondition].
  - done.
  - destruct (registry !! d); [| done].
    etrans; [apply IH | apply delete_subseteq].
  - destruct (bool_decide (id ∈ created)); [done |].
    destruct (hasNode v id); [done | apply IH].
Qed.

Lemma firstCondition_no_refs v events : ∀ registry created,
  (∀ d, ReferTo d ∉ events) →
  (firstCondition v registry created events).2 = registry.
Proof.
  induction events as [| [d | id] events IH]; intros registry created Hno;
    cbn [firstCondition].
  - done.
  - exfalso. apply (Hno d). left.
  - destruct (bool_decide (id ∈ created)); [done |].
    destruct (hasNode v id); [done |].
    apply IH. intros d Hd. apply (Hno d). by right.
Qed.

Lemma firstCondition_registry v events : ∀ registry created d,
  (firstCondition v registry created events).2 !! d
  = if bool_decide (d ∈ resolvedBefore v registry created events)
    then None else registry !! d.
Proof.
  induction events as [| [d0 | id] events IH]; intros registry created d;
    cbn [firstCondition resolvedBefore].
  - rewrite bool_decide_eq_false_2; [done | apply not_elem_of_nil].
  - destruct (registry !! d0) as [found |] eqn:Hd0.
    + rewrite IH. destruct (decide (d = d0)) as [-> | Hne].
      * rewrite lookup_delete_eq.
        rewrite (bool_decide_eq_true_2 (d0 ∈ d0 :: _)); [| left].
        by destruct (bool_decide _).
      * rewrite lookup_delete_ne by done.
        apply (f_equal (fun b : bool => if b then None else registry !! d)).
        apply bool_decide_ext. rewrite elem_of_cons. tauto.
    + cbn [snd]. rewrite bool_decide_eq_false_2; [done | apply not_elem_of_nil].
  - destruct (bool_decide (id ∈ created)).
    { cbn [snd]. rewrite bool_decide_eq_false_2; [done | apply not_elem_of_nil]. }
    destruct (hasNode v id); [| apply IH].
    cbn [snd]. rewrite bool_decide_eq_false_2; [done | apply not_elem_of_nil].
Qed.

Lemma resolvedBefore_registered v events : ∀ registry created d,
  d ∈ resolvedBefore v registry created events → is_Some (registry !! d).
Proof.
  induction events as [| [d0 | id] events IH]; intros registry created d;
    cbn [resolvedBefore].
  - by intros ?%elem_of_nil.
  - destruct (registry !! d0) as [found |] eqn:Hd0; [| by intros ?%elem_of_nil].
    intros [-> | Hin]%elem_of_cons; [by rewrite Hd0 |].
    destruct (IH _ _ _ Hin) as [x Hx].
    apply lookup_delete_Some in Hx as [_ Hx]. by rewrite Hx.
  - destruct (bool_decide (id ∈ created)); [by intros ?%elem_of_nil |].
    destruct (hasNode v id); [by intros ?%elem_of_nil | apply IH].
Qed.

Lemma resolvedBefore_prefix v events : ∀ registry created,
  resolvedBefore v registry created events `prefix_of` referencesOf events.
Proof.
  induction events as [| [d0 | id] events IH]; intros registry created;
    cbn [resolvedBefore].
  - done.
  - change (referencesOf (ReferTo d0 :: events)) with (d0 :: referencesOf events).
    destruct (registry !! d0); [| apply prefix_nil].
    apply prefix_cons, IH.
  - change (referencesOf (Create id :: events)) with (referencesOf events).
    destruct (bool_decide (id ∈ created)); [apply prefix_nil |].
    destruct (hasNode v id); [apply prefix_nil | apply IH].
Qed.

Lemma firstCondition_resolved_none v events registry created :
  resolvedBefore v registry created events = [] →
  (firstCondition v registry created events).2 = registry.
Proof.
  intros Hnone. apply map_eq. intros d. rewrite firstCondition_registry, Hnone.
  rewrite bool_decide_eq_false_2; [done | apply not_elem_of_nil].
Qed.

(** *** The loops of [createSnapshotNodesForTree] under the closures of
    [applyBuild] *)

Lemma referencesIn_app xs ys :
  referencesIn (xs ++ ys) = referencesIn xs ++ referencesIn ys.
Proof. apply omap_app. Qed.

Lemma inlineIn_app xs ys : inlineIn (xs ++ ys) = inlineIn xs ++ inlineIn ys.
Proof. apply List.filter_app. Qed.

Lemma referencesIn_ref d sequence :
  referencesIn (DetachedRef d :: sequence) = d :: referencesIn sequence.
Proof. reflexivity. Qed.

Lemma referencesIn_node id def es p sequence :
  referencesIn (TreeNode id def es p :: sequence) = referencesIn sequence.
Proof. reflexivity. Qed.

Lemma inlineIn_ref d sequence :
  inlineIn (DetachedRef d :: sequence) = inlineIn sequence.
Proof. reflexivity. Qed.

Lemma inlineIn_node id def es p sequence :
  inlineIn (TreeNode id def es p :: sequence)
  = TreeNode id def es p :: inlineIn sequence.
Proof. reflexivity. Qed.

Lemma getDetachedNodeIds_build d v registry l :
  getDetachedNodeIds d buildOnInvalidDetachedId (mkTransaction v registry, l) =
  match registry !! d with
  | Some found => (Normal (Some found), (mkTransaction v (delete d registry), l))
  | None => (Normal None, (mkTransaction v registry, notFound l))
  end.
Proof.
  unfold getDetachedNodeIds, buildOnInvalidDetachedId. run.
  by destruct (registry !! d).
Qed.

Lemma forEachEditNode_build sequence : ∀ ids stack v registry l,
  ∃ ids',
    forEachEditNode buildOnInvalidDetachedId sequence ids stack
      (mkTransaction v registry, l) =
    match firstCondition v registry ∅ (List.map ReferTo (referencesIn sequence)) with
    | (EditResult.Applied, registry') =>
        (Normal (Some (ids', rev (inlineIn sequence) ++ stack)),
         (mkTransaction v registry', l))
    | (_, registry') => (Normal None, (mkTransaction v registry', notFound l))
    end.
Proof.
  induction sequence as [| [d | id def es p] sequence IH];
    intros ids stack v registry l.
  - by exists ids.
  - cbn [forEachEditNode]. rewrite bind_run, getDetachedNodeIds_build.
    rewrite referencesIn_ref, inlineIn_ref. cbn [List.map firstCondition].
    destruct (registry !! d) as [found |] eqn:E.
    + destruct (IH (ids ++ found) stack v (delete d registry) l) as [ids' ->].
      by exists ids'.
    + by exists ids.
  - cbn [forEachEditNode]. rewrite referencesIn_node, inlineIn_node.
    destruct (IH (ids ++ [id]) (TreeNode id def es p :: stack) v registry l)
      as [ids' ->].
    exists ids'. cbn [rev]. by rewrite <- app_assoc.
Qed.

Lemma forEachTrait_build entries : ∀ traits stack v registry l,
  ∃ traits',
    forEachTrait buildOnInvalidDetachedId entries traits stack
      (mkTransaction v registry, l) =
    match firstCondition v registry ∅
            (List.map ReferTo (referencesIn (childrenIn entries))) with
    | (EditResult.Applied, registry') =>
        (Normal (Some (traits', rev (inlineIn (childrenIn entries)) ++ stack)),
         (mkTransaction v registry', l))
    | (_, registry') => (Normal None, (mkTransaction v registry', notFound l))
    end.
Proof.
  induction entries as [| [key children] entries IH];
    intros traits stack v registry l.
  - by exists traits.
  - cbn [forEachTrait]. unfold childrenIn. cbn [List.map concat snd].
    fold (childrenIn entries).
    rewrite referencesIn_app, firstCondition_refs_app, inlineIn_app, rev_app_distr.
    rewrite bind_run.
    destruct (forEachEditNode_build children [] stack v registry l) as [ids' ->].
    destruct (firstCondition v registry ∅ (List.map ReferTo (referencesIn children)))
      as [[| |] registry'] eqn:E.
    + by exists traits.
    + by exists traits.
    + destruct (IH (<[key := ids']> traits) (rev (inlineIn children) ++ stack)
                  v registry' l) as [traits' ->].
      exists traits'.
      destruct (firstCondition v registry' ∅ _) as [[| |] registry'']; try done.
      by rewrite <- app_assoc.
Qed.

Lemma buildOnCreateNode_run id node v registry l :
  buildOnCreateNode id node (mkTransaction v registry, l) =
  if bool_decide (id ∈ dom (BuildLocals.map l)) then
    (Normal true,
     (mkTransaction v registry,
      BuildLocals.mk (BuildLocals.idAlreadyPresent l) true (BuildLocals.map l)
        (BuildLocals.detachedSequenceNotFound l)))
  else if hasNode v id then
    (Normal true,
     (mkTransaction v registry,
      BuildLocals.mk true (BuildLocals.duplicateIdInBuild l) (BuildLocals.map l)
        (BuildLocals.detachedSequenceNotFound l)))
  else
    (Normal false,
     (mkTransaction v registry,
      BuildLocals.mk (BuildLocals.idAlreadyPresent l)
        (BuildLocals.duplicateIdInBuild l)
        (<[id := node]> (BuildLocals.map l))
        (BuildLocals.detachedSequenceNotFound l))).
Proof.
  unfold buildOnCreateNode. run.
  rewrite (bool_decide_ext (id ∈ dom (BuildLocals.map l))
             (is_Some (BuildLocals.map l !! id))) by apply elem_of_dom.
  destruct (bool_decide (is_Some (BuildLocals.map l !! id))); [done |].
  by destruct (hasNode v id).
Qed.

Lemma inlineIn_Forall sequence :
  Forall (fun node => isDetachedSequenceId node = false) (inlineIn sequence).
Proof.
  induction sequence as [| [d | id def es p] sequence IH].
  - constructor.
  - by rewrite inlineIn_ref.
  - rewrite inlineIn_node. by constructor.
Qed.

(** The [while] loop under the closures of [applyBuild]: with enough fuel
    it completes normally, the registry is the one at the first condition
    of the traversal, and the flags give the classification of that
    condition; when there is none, the loop returns the top-level ids. *)
Lemma whileUnprocessed_build fuel : ∀ top stack v registry l,
  noFlags l →
  Forall (fun node => isDetachedSequenceId node = false) stack →
  (sequenceCount stack ≤ fuel)%nat →
  ∃ res l',
    whileUnprocessed buildOnCreateNode buildOnInvalidDetachedId fuel top stack
      (mkTransaction v registry, l)
    = (Normal res,
       (mkTransaction v
          (firstCondition v registry (dom (BuildLocals.map l))
             (eventsOfStack stack)).2, l'))
    ∧ buildVerdict l'
      = (firstCondition v registry (dom (BuildLocals.map l)) (eventsOfStack stack)).1
    ∧ (buildVerdict l' = EditResult.Applied → res = Some top).
Proof.
  induction fuel as [| fuel IH]; intros top stack v registry l Hl Hstack Hfuel.
  - destruct stack as [| node stack].
    + exists (Some top), l. destruct Hl as (Ha & Hb & Hc).
      unfold buildVerdict. rewrite Ha, Hb, Hc. by cbn.
    + apply Forall_cons in Hstack as [Hnode _].
      destruct node as [d | id def es p]; [done |].
      unfold sequenceCount in Hfuel. cbn [foldr] in Hfuel.
      rewrite nodeCount_TreeNode in Hfuel. lia.
  - destruct stack as [| node stack].
    + exists (Some top), l. destruct Hl as (Ha & Hb & Hc).
      unfold buildVerdict. rewrite Ha, Hb, Hc. by cbn.
    + apply Forall_cons in Hstack as [Hnode Hstack].
      destruct node as [d | id def es p]; [done |].
      cbn [whileUnprocessed]. rewrite bind_run.
      rewrite eventsOfStack_cons, eventsOfNode_TreeNode, <- app_assoc.
      rewrite firstCondition_refs.
      destruct (forEachTrait_build es ∅ stack v registry l) as [traits' ->].
      destruct (firstCondition v registry ∅ _) as [r registry'] eqn:Erefs.
      assert (match r with
              | EditResult.Applied => True
              | _ => ∃ res l',
                  (Normal (@None (list NodeId)),
                   (mkTransaction v registry', notFound l))
                  = (Normal res, (mkTransaction v registry', l'))
                  ∧ buildVerdict l' = EditResult.Malformed
                  ∧ (buildVerdict l' = EditResult.Applied → res = Some top)
              end) as Hhalt.
      { destruct r; [| | done]; exists None, (notFound l); by repeat split. }
      destruct r; [exact Hhalt | exact Hhalt | clear Hhalt].
      cbn [identifier]. rewrite bind_run, buildOnCreateNode_run.
      cbn [app firstCondition].
      destruct (bool_decide (id ∈ dom (BuildLocals.map l))) eqn:Edup.
      { eexists None, _. split; [reflexivity |]. destruct Hl as (Ha & Hb & Hc).
        unfold buildVerdict. cbn. rewrite Ha. by cbn. }
      destruct (hasNode v id) eqn:Ehas.
      { eexists None, _. split; [reflexivity |]. destruct Hl as (Ha & Hb & Hc).
        unfold buildVerdict. cbn. rewrite Ha, Hb. by cbn. }
      rewrite <- eventsOfStack_app.
      set (l1 := BuildLocals.mk _ _ _ _).
      destruct (IH top (rev (inlineIn (childrenIn es)) ++ stack) v registry' l1)
        as (res & l' & Hrun & Hverdict & Hres).
      * exact Hl.
      * apply Forall_app. split; [| exact Hstack].
        apply Forall_rev, inlineIn_Forall.
      * unfold sequenceCount in Hfuel. cbn [foldr] in Hfuel.
        rewrite nodeCount_TreeNode, traitsCount_children in Hfuel.
        fold (sequenceCount stack) in Hfuel.
        rewrite sequenceCount_app, sequenceCount_rev, sequenceCount_inlineIn. lia.
      * exists res, l'. rewrite Hrun. subst l1. cbn [BuildLocals.map] in *.
        rewrite dom_insert_L in *. by repeat split.
Qed.

Lemma createSnapshotNodesForTree_build source v registry :
  ∃ res l',
    createSnapshotNodesForTree source buildOnCreateNode buildOnInvalidDetachedId
      (mkTransaction v registry, BuildLocals.init)
    = (Normal res,
       (mkTransaction v (firstCondition v registry ∅ (buildEvents source)).2, l'))
    ∧ buildVerdict l' = (firstCondition v registry ∅ (buildEvents source)).1
    ∧ (buildVerdict l' = EditResult.Applied → ∃ ids, res = Some ids).
Proof.
  unfold createSnapshotNodesForTree, buildEvents. rewrite bind_run.
  rewrite firstCondition_refs.
  destruct (forEachEditNode_build source [] [] v registry BuildLocals.init)
    as [ids' ->].
  destruct (firstCondition v registry ∅ _) as [r registry'] eqn:Erefs.
  destruct r.
  - by exists None, (notFound BuildLocals.init).
  - by exists None, (notFound BuildLocals.init).
  - destruct (whileUnprocessed_build (sequenceCount source) ids'
                (rev (inlineIn source) ++ []) v registry' BuildLocals.init)
      as (res & l' & Hrun & Hverdict & Hres).
    + done.
    + rewrite app_nil_r. apply Forall_rev, inlineIn_Forall.
    + rewrite app_nil_r, sequenceCount_rev, sequenceCount_inlineIn. lia.
    + rewrite app_nil_r, <- inlineIn_rev, eventsOfStack_inlineIn in *.
      cbn [BuildLocals.map BuildLocals.init] in *. rewrite dom_empty_L in *.
      exists res, l'. rewrite Hrun. repeat split; [done |].
      intros Happlied. eauto.
Qed.

(** [applyBuild] on a fresh destination completes normally with the
    classification of the first condition of the traversal; when it fails
    the view is untouched and the registry is the one at that condition. *)
Lemma applyBuild_run (change : Build.t) v registry :
  registry !! Build.destination change = None →
  ∃ nodes ids,
    applyBuild change (mkTransaction v registry) =
    match firstCondition v registry ∅ (buildEvents (Build.source change)) with
    | (EditResult.Applied, registry') =>
        (Normal EditResult.Applied,
         mkTransaction (insertSnapshotNodes v nodes)
           (<[Build.destination change := ids]> registry'))
    | (r, registry') => (Normal r, mkTransaction v registry')
    end.
Proof.
  intros Hfresh. unfold applyBuild.
  rewrite bind_run. cbn [get detached]. rewrite Hfresh. decided.
  rewrite bind_run. unfold withLocals.
  destruct (createSnapshotNodesForTree_build (Build.source change) v registry)
    as (res & l' & -> & Hverdict & Hres).
  destruct (firstCondition v registry ∅ _) as [r registry'].
  cbn [fst snd] in *. unfold buildVerdict in Hverdict, Hres.
  exists (BuildLocals.map l').
  destruct (BuildLocals.detachedSequenceNotFound l'
            || BuildLocals.duplicateIdInBuild l').
  { subst r. by exists []. }
  destruct (BuildLocals.idAlreadyPresent l').
  { subst r. by exists []. }
  subst r. destruct Hres as [ids ->]; [done |]. by exists ids.
Qed.

Lemma applyBuild_occupied (change : Build.t) (this : Transaction) :
  is_Some (detached this !! Build.destination change) →
  applyBuild change this = (Normal EditResult.Malformed, this).
Proof. intros Hocc. unfold applyBuild. run. by decided. Qed.

Lemma firstCondition_app v pre : ∀ registry created rest,
  (firstCondition v registry created pre).1 = EditResult.Applied →
  firstCondition v registry created (pre ++ rest) =
  firstCondition v (firstCondition v registry created pre).2
    (createdIn pre ∪ created) rest.
Proof.
  induction pre as [| [d | id] pre IH]; intros registry created rest Hpre;
    cbn [app firstCondition] in *.
  - unfold createdIn. cbn. by rewrite (left_id_L ∅ (∪)).
  - destruct (registry !! d); [| done]. rewrite IH by done. reflexivity.
  - destruct (bool_decide (id ∈ created)); [done |].
    destruct (hasNode v id); [done |].
    rewrite IH by done. f_equal. unfold createdIn. cbn. set_solver.
Qed.

Section BuildFacts.
Context `{EditUtilities}.

(** C2 (amended). A Build on a fresh destination returns the
    classification of the first condition its traversal meets, and halts
    there: when an identifier already in the view is met first the result
    is Invalid, whatever duplicates come later; when an identifier created
    earlier in the same build is met first the result is Malformed,
    whatever already-present identifiers come later. *)
Theorem applyBuild_first_condition (change : Build.t) (this : Transaction) :
  detached this !! Build.destination change = None →
  (dispatchChange (ChangeBuild change) this).1
  = Normal (firstCondition (view this) (detached this) ∅
              (buildEvents (Build.source change))).1
  ∧ ∀ pre id post,
      buildEvents (Build.source change) = pre ++ Create id :: post →
      (firstCondition (view this) (detached this) ∅ pre).1 = EditResult.Applied →
      (id ∈ createdIn pre →
       (dispatchChange (ChangeBuild change) this).1 = Normal EditResult.Malformed)
      ∧ (id ∉ createdIn pre → hasNode (view this) id = true →
         (dispatchChange (ChangeBuild change) this).1 = Normal EditResult.Invalid).
Proof.
  intros Hfresh. destruct this as [v registry]. cbn [dispatchChange view detached] in *.
  destruct (applyBuild_run change v registry Hfresh) as (nodes & ids & Hrun).
  assert ((applyBuild change (mkTransaction v registry)).1
          = Normal (firstCondition v registry ∅
                      (buildEvents (Build.source change))).1) as Hfirst.
  { rewrite Hrun.
    by destruct (firstCondition v registry ∅ _) as [[| |] registry']. }
  split; [exact Hfirst |].
  intros pre id post Hevents Hpre. rewrite Hfirst, Hevents.
  rewrite firstCondition_app by exact Hpre. cbn [firstCondition].
  rewrite (right_id_L ∅ (∪)). split.
  - intros Hin. by decided.
  - intros Hnotin Hhas. decided. by rewrite Hhas.
Qed.

Lemma failed_not_build (change : Change) (this this' : Transaction) r :
  (∀ b, change ≠ ChangeBuild b) →
  dispatchChange change this = (Normal r, this') →
  r ≠ EditResult.Applied →
  this' = this.
Proof.
  intros Hkind Hrun Hr.
  destruct change as [b | c | c | c | c |];
    [by destruct (Hkind b) | | | | | discriminate Hrun];
    cbn [dispatchChange] in Hrun; revert Hrun.
  - unfold applyInsert. run. destruct (detached this !! Insert.source c).
    + destruct (bool_decide _); cbn; [by intros [= _ ->] | by intros [= <-]].
    + by intros [= _ ->].
  - unfold applyDetach. run.
    destruct (bool_decide _); cbn; [by intros [= _ ->] |].
    destruct (Detach.destination c); [| by intros [= <-]].
    destruct (bool_decide _); cbn; [by intros [= _ ->] | by intros [= <-]].
  - unfold applyConstraint. run.
    repeat (match goal with |- context [if ?b then _ else _] => destruct b end;
            cbn; try (by intros [= _ ->]); try done).
  - unfold applySetValue. run.
    destruct (hasNode _ _); cbn; [| by intros [= _ ->]].
    destruct (getSnapshotNode _ _); cbn; [by intros [= <-] | done].
Qed.

(** Every change completes: the traversal of a Build never exhausts its
    fuel, and the only throws are the two assertions of [applyConstraint]
    on the unimplemented hash fields and the [fail] of the [default]
    arm. *)
Lemma dispatchChange_completes (change : Change) (this : Transaction) :
  (∃ r this', dispatchChange change this = (Normal r, this'))
  ∨ (∃ c msg, change = ChangeConstraint c
       ∧ (Constraint.identityHash c ≠ None ∨ Constraint.contentHash c ≠ None)
       ∧ dispatchChange change this = (Throw msg, this))
  ∨ (change = ChangeUnsupported
     ∧ dispatchChange change this
       = (Throw "Attempted to apply unsupported change", this)).
Proof.
  destruct change as [b | c | c | c | c |]; cbn [dispatchChange];
    [| | | | | by right; right].
  - left. destruct (detached this !! Build.destination b) as [ids |] eqn:Hdest.
    + rewrite applyBuild_occupied by (by rewrite Hdest). eauto.
    + destruct this as [v registry]. cbn [detached] in Hdest.
      destruct (applyBuild_run b v registry Hdest) as (nodes & ids & ->).
      destruct (firstCondition v registry ∅ _) as [[| |] registry']; eauto.
  - left. unfold applyInsert. run.
    destruct (detached this !! Insert.source c); [| eauto].
    destruct (bool_decide _); eauto.
  - left. unfold applyDetach. run.
    destruct (bool_decide _); [eauto |].
    destruct (Detach.destination c); [| eauto].
    destruct (bool_decide _); eauto.
  - destruct (Constraint.identityHash c) as [h |] eqn:Ei.
    { right. left. exists c. unfold applyConstraint. rewrite Ei. run. decided.
      eexists. split_and!; [done | by left | done]. }
    destruct (Constraint.contentHash c) as [h |] eqn:Ec.
    { right. left. exists c. unfold applyConstraint. rewrite Ei, Ec. run.
      decided. eexists. split_and!; [done | by right | done]. }
    left. unfold applyConstraint. rewrite Ei, Ec. run. decided. cbn iota beta.
    repeat (match goal with |- context [if ?b then _ else _] => destruct b end;
            eauto).
  - left. unfold applySetValue. run.
    destruct (hasNode (view this) (SetValue.nodeToModify c)) eqn:Ehas;
      cbn [negb]; [| eauto].
    apply hasNode_true in Ehas as [node Hnode].
    unfold getSnapshotNode. rewrite Hnode. eauto.
Qed.

(** C3 (amended). When a change returns Invalid or Malformed the view is
    exactly as before. The registry is exactly as before for Insert,
    Detach, Constraint and SetValue, and for a Build whose traversal
    resolves no detached reference before it halts (in particular when the
    destination is taken, or when the source holds no reference). After
    any other failing Build it is the prior registry with exactly the
    sequences the traversal resolved before it halted removed: an initial
    segment of the references of the source in traversal order, each of
    them registered; every other entry is unchanged. *)
Theorem failed_change_effects (change : Change) (this this' : Transaction) r :
  dispatchChange change this = (Normal r, this') →
  r ≠ EditResult.Applied →
  view this' = view this
  ∧ detached this' ⊆ detached this
  ∧ ((∀ b, change ≠ ChangeBuild b) → this' = this)
  ∧ (∀ b, change = ChangeBuild b →
       (∀ d, detached this' !! d
             = if bool_decide (d ∈ resolvedByBuild this b)
               then None else detached this !! d)
       ∧ (∀ d, d ∈ resolvedByBuild this b → is_Some (detached this !! d))
       ∧ resolvedByBuild this b
           `prefix_of` referencesOf (buildEvents (Build.source b))
       ∧ (resolvedByBuild this b = [] → this' = this)
       ∧ ((∀ d, ReferTo d ∉ buildEvents (Build.source b)) → this' = this)).
Proof.
  intros Hrun Hr.
  destruct change as [b | c | c | c | c |].
  2-6: assert (this' = this) as ->
      by (eapply failed_not_build; [| exact Hrun | exact Hr]; by intros ? [=]).
  2-6: by repeat split.
  cbn [dispatchChange] in Hrun. unfold resolvedByBuild.
  destruct (detached this !! Build.destination b) as [ids |] eqn:Hdest.
  - rewrite applyBuild_occupied in Hrun by (by rewrite Hdest).
    injection Hrun as _ <-. split_and!; try done.
    intros b' [= <-]. rewrite Hdest. split_and!; try done.
    + intros d Hin. by apply elem_of_nil in Hin.
    + apply prefix_nil.
  - destruct this as [v registry]. cbn [view detached] in *.
    destruct (applyBuild_run b v registry Hdest) as (nodes & ids & Hb).
    rewrite Hb in Hrun.
    pose proof (firstCondition_subseteq v (buildEvents (Build.source b))
                  registry ∅) as Hsub.
    pose proof (firstCondition_no_refs v (buildEvents (Build.source b))
                  registry ∅) as Hsame.
    pose proof (firstCondition_registry v (buildEvents (Build.source b))
                  registry ∅) as Hlookup.
    pose proof (firstCondition_resolved_none v (buildEvents (Build.source b))
                  registry ∅) as Hnone.
    destruct (firstCondition v registry ∅ _) as [[| |] registry'];
      cbn [snd] in *; injection Hrun as <- <-; try done.
    all: split_and!; try done.
    all: try (intros Hkind; by destruct (Hkind b)).
    all: intros b' [= <-]; rewrite Hdest; split_and!;
      [ exact Hlookup
      | apply resolvedBefore_registered
      | apply resolvedBefore_prefix
      | intros Hnil; by rewrite Hnone
      | intros Hno; by rewrite Hsame ].
Qed.

End BuildFacts.

(** C1, as stated, fails: after [Build([], 1)] is applied and a SetValue
    on an absent node fails with Invalid, the registry still holds the
    entry 1, yet closing gives Invalid, not Malformed. *)
Lemma close_after_invalid_counterexample :
  detached (this_ Runs.failedWithEntry) !! 1 = Some []
  ∧ detached (this_ Runs.failedWithEntry) ≠ ∅
  ∧ (close Runs.failedWithEntry).1 = Normal (EditResult.Invalid, None)
  ∧ outcome (close Runs.failedWithEntry).2 = EditResult.Invalid
  ∧ outcome (close Runs.failedWithEntry).2 ≠ EditResult.Malformed.
Proof.
  assert (detached (this_ Runs.failedWithEntry) !! 1 = Some []) as E
    by (vm_compute; reflexivity).
  split_and!.
  - exact E.
  - intros Hempty. rewrite Hempty in E. discriminate E.
  - vm_compute; reflexivity.
  - vm_compute; reflexivity.
  - vm_compute. discriminate.
Qed.

Lemma close_open_transaction_witness :
  (close (mkTransactionState Runs.afterBuildN Open EditResult.Applied)).1
    = Normal (EditResult.Malformed, None)
  ∧ (close (newTransaction SampleHost.emptyTree)).1
    = Normal (EditResult.Applied, Some SampleHost.emptyTree).
Proof.
  split.
  - destruct (close_open_transaction
                (mkTransactionState Runs.afterBuildN Open EditResult.Applied)
                eq_refl) as [Hne _].
    destruct Hne as [_ ->]; [| reflexivity].
    intros Hempty. apply (f_equal (fun m => m !! 1)) in Hempty.
    vm_compute in Hempty. discriminate Hempty.
  - destruct (close_open_transaction (newTransaction SampleHost.emptyTree)
                eq_refl) as [_ He].
    destruct He as [_ ->]; reflexivity.
Defined.

(** C2, as stated, fails: the source holds [N] twice and [A], which the
    view already has; the traversal pops [A] first and the result is
    Invalid, not Malformed. *)
Lemma applyBuild_priority_counterexample :
  hasNode SampleHost.abcTree "A" = true
  ∧ detached (factory SampleHost.abcTree) !! 1 = None
  ∧ dispatchChange (H := SampleHost.host)
      (ChangeBuild (Build.mk [Runs.N; Runs.N; Runs.A] 1))
      (factory SampleHost.abcTree)
    = (Normal EditResult.Invalid, factory SampleHost.abcTree)
  ∧ dispatchChange (H := SampleHost.host)
      (ChangeBuild (Build.mk [Runs.A; Runs.N; Runs.N] 1))
      (factory SampleHost.abcTree)
    = (Normal EditResult.Malformed, factory SampleHost.abcTree).
Proof. split_and!; vm_compute; reflexivity. Qed.

Lemma applyBuild_first_condition_witness :
  (dispatchChange (H := SampleHost.host)
     (ChangeBuild (Build.mk [Runs.N; Runs.N; Runs.A] 1))
     (factory SampleHost.abcTree)).1
  = Normal EditResult.Invalid.
Proof.
  destruct (applyBuild_first_condition (H := SampleHost.host)
              (Build.mk [Runs.N; Runs.N; Runs.A] 1) (factory SampleHost.abcTree))
    as [_ Hfirst].
  - reflexivity.
  - apply (Hfirst [] "A" [Create "N"; Create "N"]).
    + reflexivity.
    + reflexivity.
    + vm_compute. discriminate.
    + vm_compute; reflexivity.
Defined.

(** C3, as stated, fails: the registry holds the sequence 1; a Build that
    references it and then meets a duplicate identifier returns Malformed
    with the sequence gone from the registry. *)
Lemma failed_build_registry_counterexample :
  detached Runs.afterBuildN !! 1 = Some ["N"]
  ∧ (dispatchChange (H := SampleHost.host)
       (ChangeBuild (Build.mk [DetachedRef 1; Runs.M'; Runs.M'] 2))
       Runs.afterBuildN).1 = Normal EditResult.Malformed
  ∧ detached (dispatchChange (H := SampleHost.host)
                (ChangeBuild (Build.mk [DetachedRef 1; Runs.M'; Runs.M'] 2))
                Runs.afterBuildN).2 !! 1 = None
  ∧ detached (dispatchChange (H := SampleHost.host)
                (ChangeBuild (Build.mk [DetachedRef 1; Runs.M'; Runs.M'] 2))
                Runs.afterBuildN).2 ≠ detached Runs.afterBuildN.
Proof.
  split_and!; try (vm_compute; reflexivity).
  intros E. apply (f_equal (fun m => m !! 1)) in E. vm_compute in E.
  discriminate E.
Qed.

Lemma failed_change_effects_witness :
  view (dispatchChange (H := SampleHost.host)
          (ChangeBuild (Build.mk [DetachedRef 1; Runs.M'; Runs.M'] 2))
          Runs.afterBuildN).2 = view Runs.afterBuildN
  ∧ detached (dispatchChange (H := SampleHost.host)
                (ChangeBuild (Build.mk [DetachedRef 1; Runs.M'; Runs.M'] 2))
                Runs.afterBuildN).2 ⊆ detached Runs.afterBuildN
  ∧ detached (dispatchChange (H := SampleHost.host)
                (ChangeBuild (Build.mk [DetachedRef 1; Runs.M'; Runs.M'] 2))
                Runs.afterBuildN).2 !! 1 = None
  ∧ (dispatchChange (H := SampleHost.host)
       (ChangeBuild
          (Build.mk [TreeNode "X" "D" [("L", [DetachedRef 1])] None;
                     Runs.M'; Runs.M'] 2))
       Runs.afterBuildN).2 = Runs.afterBuildN.
Proof.
  destruct (failed_change_effects (H := SampleHost.host)
              (ChangeBuild (Build.mk [DetachedRef 1; Runs.M'; Runs.M'] 2))
              Runs.afterBuildN
              (dispatchChange (H := SampleHost.host)
                 (ChangeBuild (Build.mk [DetachedRef 1; Runs.M'; Runs.M'] 2))
                 Runs.afterBuildN).2
              EditResult.Malformed) as (Hview & Hsub & _ & Hbuild).
  { vm_compute; reflexivity. }
  { discriminate. }
  destruct (Hbuild _ eq_refl) as (Hlookup & _).
  destruct (failed_change_effects (H := SampleHost.host)
              (ChangeBuild
                 (Build.mk [TreeNode "X" "D" [("L", [DetachedRef 1])] None;
                            Runs.M'; Runs.M'] 2))
              Runs.afterBuildN
              (dispatchChange (H := SampleHost.host)
                 (ChangeBuild
                    (Build.mk [TreeNode "X" "D" [("L", [DetachedRef 1])] None;
                               Runs.M'; Runs.M'] 2))
                 Runs.afterBuildN).2
              EditResult.Malformed) as (_ & _ & _ & Hunreached).
  { vm_compute; reflexivity. }
  { discriminate. }
  destruct (Hunreached _ eq_refl) as (_ & _ & _ & Hnone & _).
  split_and!.
  - exact Hview.
  - exact Hsub.
  - rewrite (Hlookup 1). vm_compute; reflexivity.
  - apply Hnone. vm_compute; reflexivity.
Defined.

Lemma applyInsert_cases_witness :
  dispatchChange (H := SampleHost.host)
    (ChangeInsert (Insert.mk 1 SampleHost.startOfRL)) (factory SampleHost.abcTree)
  = (Normal EditResult.Malformed, factory SampleHost.abcTree)
  ∧ dispatchChange (H := SampleHost.host)
      (ChangeInsert (Insert.mk 1 (SiblingPlace "Z" After))) Runs.afterBuildN
    = (Normal EditResult.Invalid, Runs.afterBuildN)
  ∧ dispatchChange (H := SampleHost.host)
      (ChangeInsert (Insert.mk 1 (SiblingPlace "" After))) Runs.afterBuildN
    = (Normal EditResult.Malformed, Runs.afterBuildN)
  ∧ dispatchChange (H := SampleHost.host)
      (ChangeInsert (Insert.mk 1 SampleHost.startOfRL)) Runs.afterBuildN
    = (Normal EditResult.Applied,
       mkTransaction
         (SampleHost.insert (view Runs.afterBuildN) ["N"] SampleHost.startOfRL)
         (delete 1 (detached Runs.afterBuildN))).
Proof.
  split_and!.
  - apply (applyInsert_cases (H := SampleHost.host)). reflexivity.
  - eapply (applyInsert_cases (H := SampleHost.host)
              (Insert.mk 1 (SiblingPlace "Z" After)) Runs.afterBuildN);
      vm_compute; reflexivity.
  - eapply (applyInsert_cases (H := SampleHost.host)
              (Insert.mk 1 (SiblingPlace "" After)) Runs.afterBuildN);
      vm_compute; reflexivity.
  - eapply (applyInsert_cases (H := SampleHost.host)
              (Insert.mk 1 SampleHost.startOfRL) Runs.afterBuildN);
      vm_compute; reflexivity.
Defined.

Lemma applyDetach_valid_range_witness :
  dispatchChange (H := SampleHost.host)
    (ChangeDetach (Detach.mk (SampleHost.rangeOf "B") (Some 1))) Runs.afterBuildN
  = (Normal EditResult.Malformed, Runs.afterBuildN)
  ∧ (dispatchChange (H := SampleHost.host)
       (ChangeDetach (Detach.mk (SampleHost.rangeOf "B") (Some 1)))
       (factory SampleHost.abcTree)).1 = Normal EditResult.Applied
  ∧ hasNode
      (view (dispatchChange (H := SampleHost.host)
               (ChangeDetach (Detach.mk (SampleHost.rangeOf "B") None))
               (factory SampleHost.abcTree)).2) "B" = false.
Proof.
  split_and!.
  - eapply (applyDetach_valid_range (H := SampleHost.host)
              (Detach.mk (SampleHost.rangeOf "B") (Some 1)) Runs.afterBuildN);
      [vm_compute; reflexivity | reflexivity |].
    vm_compute. eauto.
  - destruct (applyDetach_valid_range (H := SampleHost.host)
                (Detach.mk (SampleHost.rangeOf "B") (Some 1))
                (factory SampleHost.abcTree)) as [Hsome _];
      [vm_compute; reflexivity |].
    destruct (Hsome 1 eq_refl) as [_ Hfresh].
    destruct Hfresh as [-> _]; reflexivity.
  - eapply (applyDetach_valid_range (H := SampleHost.host)
              (Detach.mk (SampleHost.rangeOf "B") None)
              (factory SampleHost.abcTree));
      [vm_compute; reflexivity | reflexivity |].
    vm_compute. left.
Defined.

(** C7, as stated, fails: on a Constraint that carries an [identityHash]
    and whose range validates as Malformed, the interpreter throws
    instead of returning Malformed. *)
Lemma applyConstraint_hash_counterexample :
  validateStableRange (EditUtilities := SampleHost.host)
    (view (factory SampleHost.abcTree)) (Constraint.toConstrain Runs.hashed)
  = EditValidationResult.Malformed
  ∧ dispatchChange (H := SampleHost.host) (ChangeConstraint Runs.hashed)
      (factory SampleHost.abcTree)
    = (Throw "identityHash constraint is not implemented",
       factory SampleHost.abcTree)
  ∧ (dispatchChange (H := SampleHost.host) (ChangeConstraint Runs.hashed)
       (factory SampleHost.abcTree)).1 ≠ Normal EditResult.Malformed.
Proof. split_and!; [vm_compute; reflexivity .. | vm_compute; discriminate]. Qed.

Lemma applyConstraint_cases_witness :
  dispatchChange (H := SampleHost.host)
    (ChangeConstraint (Runs.lengthFive ValidRetry)) (factory SampleHost.abcTree)
  = (Normal EditResult.Applied, factory SampleHost.abcTree)
  ∧ dispatchChange (H := SampleHost.host)
      (ChangeConstraint (Runs.lengthFive InvalidRetry)) (factory SampleHost.abcTree)
    = (Normal EditResult.Invalid, factory SampleHost.abcTree)
  ∧ dispatchChange (H := SampleHost.host)
      (ChangeConstraint
         (Constraint.mk Runs.backwards None None None None None ValidRetry))
      (factory SampleHost.abcTree)
    = (Normal EditResult.Malformed, factory SampleHost.abcTree).
Proof.
  split_and!.
  - destruct (applyConstraint_cases (H := SampleHost.host)
                (Runs.lengthFive ValidRetry) (factory SampleHost.abcTree)
                eq_refl eq_refl) as (_ & _ & Hviolated & _).
    apply Hviolated; [vm_compute; reflexivity |].
    left. exists 5. split; [reflexivity | vm_compute; discriminate].
  - destruct (applyConstraint_cases (H := SampleHost.host)
                (Runs.lengthFive InvalidRetry) (factory SampleHost.abcTree)
                eq_refl eq_refl) as (_ & _ & Hviolated & _).
    apply Hviolated; [vm_compute; reflexivity |].
    left. exists 5. split; [reflexivity | vm_compute; discriminate].
  - destruct (applyConstraint_cases (H := SampleHost.host)
                (Constraint.mk Runs.backwards None None None None None ValidRetry)
                (factory SampleHost.abcTree) eq_refl eq_refl) as (Hmalformed & _).
    apply Hmalformed. vm_compute; reflexivity.
Defined.

Lemma applySetValue_cases_witness :
  dispatchChange (H := SampleHost.host)
    (ChangeSetValue (SetValue.mk "Z" (Some "p"))) (factory SampleHost.abcTree)
  = (Normal EditResult.Invalid, factory SampleHost.abcTree)
  ∧ ∃ node newNode,
      getSnapshotNode SampleHost.abcTree "A" = Some node
      ∧ dispatchChange (H := SampleHost.host)
          (ChangeSetValue (SetValue.mk "A" (Some "p"))) (factory SampleHost.abcTree)
        = (Normal EditResult.Applied,
           mkTransaction (replaceNodeData SampleHost.abcTree "A" newNode) ∅)
      ∧ payload newNode = Some "p"
      ∧ identifier newNode = identifier node.
Proof.
  split.
  - apply (applySetValue_cases (H := SampleHost.host)
             (SetValue.mk "Z" (Some "p")) (factory SampleHost.abcTree)).
    vm_compute; reflexivity.
  - destruct (applySetValue_cases (H := SampleHost.host)
                (SetValue.mk "A" (Some "p")) (factory SampleHost.abcTree))
      as [_ Hhas].
    destruct Hhas as (node & newNode & Hnode & Hrun & _ & Hset & Hid & _);
      [vm_compute; reflexivity |].
    exists node, newNode. split_and!; [exact Hnode | exact Hrun | | exact Hid].
    apply Hset. reflexivity.
Defined.

Lemma applyConstraint_hash_assertions_witness :
  (∃ msg, dispatchChange (H := SampleHost.host) (ChangeConstraint Runs.hashed)
            (factory SampleHost.abcTree) = (Throw msg, factory SampleHost.abcTree))
  ∧ (∃ result, dispatchChange (H := SampleHost.host)
                 (ChangeConstraint (Runs.lengthFive InvalidRetry))
                 (factory SampleHost.abcTree)
               = (Normal result, factory SampleHost.abcTree)).
Proof.
  split.
  - apply (applyConstraint_hash_assertions (H := SampleHost.host)).
    left. discriminate.
  - apply (applyConstraint_hash_assertions (H := SampleHost.host));
      reflexivity.
Defined.

Lemma applyBuild_empty_source_witness :
  dispatchChange (H := SampleHost.host) (ChangeBuild (Build.mk [] 1))
    (factory SampleHost.emptyTree)
  = (Normal EditResult.Applied, mkTransaction SampleHost.emptyTree {[ 1 := [] ]}).
Proof.
  destruct (applyBuild_empty_source (H := SampleHost.host) (Build.mk [] 1)
              (factory SampleHost.emptyTree) eq_refl eq_refl) as [Hrun _].
  exact Hrun.
Defined.

(** ** The scenarios of the specification, run on the host *)

Section Scenarios.
Import SampleHost Runs.

Example build_insert_round_trip :
  let st := closed [buildN; ChangeInsert (Insert.mk 1 startOfRL)] emptyTree in
  outcome st = EditResult.Applied
  ∧ childrenOf (view (this_ st)) RL = ["N"]
  ∧ definition <$> snapshotNodes (view (this_ st)) !! "N" = Some "D".
Proof. split_and!; vm_compute; reflexivity. Qed.

Example unused_detached_is_malformed :
  outcome (closed [buildN] emptyTree) = EditResult.Malformed.
Proof. vm_compute; reflexivity. Qed.

Example duplicate_id_in_build :
  dispatchChange (ChangeBuild (Build.mk [N; N] 1)) (factory emptyTree)
  = (Normal EditResult.Malformed, factory emptyTree).
Proof. vm_compute; reflexivity. Qed.

Example detach_without_destination_deletes :
  let st := closed [ChangeDetach (Detach.mk (rangeOf "B") None)] abcTree in
  outcome st = EditResult.Applied
  ∧ hasNode (view (this_ st)) "B" = false
  ∧ childrenOf (view (this_ st)) RL = ["A"; "C"].
Proof. split_and!; vm_compute; reflexivity. Qed.

Example detach_with_destination_reinserts :
  let st := closed [ChangeDetach (Detach.mk (rangeOf "B") (Some 1));
                    ChangeInsert (Insert.mk 1 (SiblingPlace "C" After))] abcTree in
  outcome st = EditResult.Applied
  ∧ childrenOf (view (this_ st)) RL = ["A"; "C"; "B"]
  ∧ map_to_list (detached (this_ st)) = [].
Proof. split_and!; vm_compute; reflexivity. Qed.

Example constraint_valid_retry_is_not_fatal :
  let st := closed [ChangeConstraint (lengthFive ValidRetry)] abcTree in
  outcome st = EditResult.Applied ∧ view (this_ st) = abcTree.
Proof. split_and!; vm_compute; reflexivity. Qed.

Example constraint_invalid_retry_is_invalid :
  let st := closed [ChangeConstraint (lengthFive InvalidRetry)] abcTree in
  outcome st = EditResult.Invalid ∧ status st = Closed.
Proof. split_and!; vm_compute; reflexivity. Qed.

Example set_value_on_absent_node :
  outcome (closed [ChangeSetValue (SetValue.mk "Z" (Some "p"))] abcTree)
  = EditResult.Invalid.
Proof. vm_compute; reflexivity. Qed.

Example insert_from_consumed_detached :
  let st := (applyChanges [buildN; ChangeInsert (Insert.mk 1 startOfRL)]
               (newTransaction emptyTree)).2 in
  (apply (ChangeInsert (Insert.mk 1 startOfRL)) st).1
  = Normal EditResult.Malformed.
Proof. vm_compute; reflexivity. Qed.

End Scenarios.

(** * Further properties of the interpreter *)

(** ** Fragments *)

Lemma EditNode_nested_ind (P : EditNode → Prop) :
  (∀ d, P (DetachedRef d)) →
  (∀ id def entries p,
     Forall P (childrenIn entries) → P (TreeNode id def entries p)) →
  ∀ node, P node.
Proof.
  intros Href Hnode. fix IH 1. intros [d | id def entries p]; [apply Href |].
  apply Hnode. revert entries. fix IHe 1. intros [| [key cs] entries].
  - constructor.
  - unfold childrenIn. cbn [List.map concat snd]. apply Forall_app. split.
    + revert cs. fix IHc 1. intros [| c cs].
      * constructor.
      * constructor; [apply IH | apply IHc].
    + apply IHe.
Qed.

Lemma identifiersWithin_TreeNode id def entries p :
  identifiersWithin (TreeNode id def entries p)
  = id :: allIdentifiers (childrenIn entries).
Proof.
  cbn [identifiersWithin]. f_equal. unfold allIdentifiers, childrenIn.
  induction entries as [| [key cs] entries IH]; [done |].
  cbn [List.map concat snd]. rewrite map_app, concat_app, <- IH. f_equal.
  clear IH. induction cs as [| c cs IH]; [done |].
  cbn [List.map concat]. by rewrite <- IH.
Qed.

Lemma referencesWithin_TreeNode id def entries p :
  referencesWithin (TreeNode id def entries p)
  = allReferences (childrenIn entries).
Proof.
  cbn [referencesWithin]. unfold allReferences, childrenIn.
  induction entries as [| [key cs] entries IH]; [done |].
  cbn [List.map concat snd]. rewrite map_app, concat_app, <- IH. f_equal.
  clear IH. induction cs as [| c cs IH]; [done |].
  cbn [List.map concat]. by rewrite <- IH.
Qed.

Lemma creationsOf_app xs ys :
  creationsOf (xs ++ ys) = creationsOf xs ++ creationsOf ys.
Proof. apply omap_app. Qed.

Lemma referencesOf_app xs ys :
  referencesOf (xs ++ ys) = referencesOf xs ++ referencesOf ys.
Proof. apply omap_app. Qed.

Lemma creationsOf_refs refs : creationsOf (List.map ReferTo refs) = [].
Proof. induction refs as [| d refs IH]; [done | exact IH]. Qed.

Lemma referencesOf_refs refs : referencesOf (List.map ReferTo refs) = refs.
Proof. induction refs as [| d refs IH]; [done |]. cbn. f_equal. exact IH. Qed.

Lemma creationsOf_create id events :
  creationsOf (Create id :: events) = id :: creationsOf events.
Proof. reflexivity. Qed.

Lemma referencesOf_create id events :
  referencesOf (Create id :: events) = referencesOf events.
Proof. reflexivity. Qed.

Lemma createdIn_creationsOf events :
  createdIn events = list_to_set (creationsOf events).
Proof. reflexivity. Qed.

Lemma eventsOfStack_singleton node : eventsOfStack [node] = eventsOfNode node.
Proof. unfold eventsOfStack. cbn. apply app_nil_r. Qed.

Lemma eventsOfStack_rev_creations stack :
  creationsOf (eventsOfStack (rev stack)) ≡ₚ creationsOf (eventsOfStack stack).
Proof.
  induction stack as [| node stack IH]; [done |].
  cbn [rev].
  rewrite eventsOfStack_app, eventsOfStack_singleton, (eventsOfStack_cons node).
  rewrite !creationsOf_app, IH. apply Permutation_app_comm.
Qed.

Lemma eventsOfStack_rev_references stack :
  referencesOf (eventsOfStack (rev stack)) ≡ₚ referencesOf (eventsOfStack stack).
Proof.
  induction stack as [| node stack IH]; [done |].
  cbn [rev].
  rewrite eventsOfStack_app, eventsOfStack_singleton, (eventsOfStack_cons node).
  rewrite !referencesOf_app, IH. apply Permutation_app_comm.
Qed.

(** The traversal creates each inline identifier of the stack once per
    occurrence, in some order. *)
Lemma creationsOf_eventsOfNode node :
  creationsOf (eventsOfNode node) ≡ₚ identifiersWithin node.
Proof.
  induction node as [d | id def entries p IH] using EditNode_nested_ind; [done |].
  rewrite eventsOfNode_TreeNode, identifiersWithin_TreeNode.
  rewrite creationsOf_app, creationsOf_refs, creationsOf_create. cbn [app].
  constructor.
  rewrite eventsOfStack_rev_creations, eventsOfStack_inlineIn.
  unfold allIdentifiers.
  induction IH as [| c cs Hc _ IHcs]; [done |].
  rewrite eventsOfStack_cons, creationsOf_app. cbn [List.map concat].
  by rewrite Hc, IHcs.
Qed.

Lemma creationsOf_eventsOfStack stack :
  creationsOf (eventsOfStack stack) ≡ₚ allIdentifiers stack.
Proof.
  unfold allIdentifiers. induction stack as [| node stack IH]; [done |].
  rewrite eventsOfStack_cons, creationsOf_app. cbn [List.map concat].
  by rewrite creationsOf_eventsOfNode, IH.
Qed.

Lemma allReferences_split sequence :
  referencesIn sequence ++ allReferences (inlineIn sequence)
  ≡ₚ allReferences sequence.
Proof.
  unfold allReferences.
  induction sequence as [| [d | id def es p] sequence IH]; [done | |].
  - rewrite referencesIn_ref, inlineIn_ref. cbn. by constructor.
  - rewrite referencesIn_node, inlineIn_node. cbn [List.map concat].
    rewrite <- IH, !app_assoc. apply Permutation_app_tail, Permutation_app_comm.
Qed.

Lemma referencesOf_eventsOfNode node :
  referencesOf (eventsOfNode node)
  ≡ₚ match node with
     | DetachedRef _ => []
     | TreeNode _ _ _ _ => referencesWithin node
     end.
Proof.
  induction node as [d | id def entries p IH] using EditNode_nested_ind; [done |].
  rewrite eventsOfNode_TreeNode, referencesWithin_TreeNode.
  rewrite referencesOf_app, referencesOf_refs, referencesOf_create.
  rewrite eventsOfStack_rev_references, <- allReferences_split.
  apply Permutation_app_head.
  induction IH as [| c cs Hc _ IHcs]; [done |].
  destruct c as [d | cid cdef ces cp].
  - rewrite inlineIn_ref. exact IHcs.
  - rewrite inlineIn_node, eventsOfStack_cons, referencesOf_app.
    unfold allReferences. cbn [List.map concat].
    fold (allReferences (inlineIn cs)). by rewrite Hc, IHcs.
Qed.

Lemma referencesOf_eventsOfStack stack :
  referencesOf (eventsOfStack stack) ≡ₚ allReferences (inlineIn stack).
Proof.
  induction stack as [| [d | id def es p] stack IH]; [done | |].
  - rewrite inlineIn_ref. exact IH.
  - rewrite inlineIn_node, eventsOfStack_cons, referencesOf_app.
    unfold allReferences. cbn [List.map concat].
    fold (allReferences (inlineIn stack)).
    by rewrite (referencesOf_eventsOfNode (TreeNode id def es p)), IH.
Qed.

(** The events of a Build reach every inline identifier and every detached
    reference of the source, each as often as it occurs. *)
Lemma buildEvents_creations source :
  creationsOf (buildEvents source) ≡ₚ allIdentifiers source.
Proof.
  unfold buildEvents. rewrite creationsOf_app, creationsOf_refs. cbn [app].
  by rewrite eventsOfStack_rev_creations, creationsOf_eventsOfStack.
Qed.

Lemma buildEvents_references source :
  referencesOf (buildEvents source) ≡ₚ allReferences source.
Proof.
  unfold buildEvents. rewrite referencesOf_app, referencesOf_refs.
  rewrite eventsOfStack_rev_references, referencesOf_eventsOfStack.
  apply allReferences_split.
Qed.

(** ** When a Build is applied *)

Lemma firstCondition_applied_iff v events : ∀ registry created,
  (firstCondition v registry created events).1 = EditResult.Applied ↔
  NoDup (referencesOf events)
  ∧ (∀ d, d ∈ referencesOf events → is_Some (registry !! d))
  ∧ NoDup (creationsOf events)
  ∧ (∀ id, id ∈ creationsOf events → (id ∉ created) ∧ hasNode v id = false).
Proof.
  induction events as [| [d | id] events IH]; intros registry created.
  - cbn. split; [intros _ | done].
    split_and!;
      [ apply NoDup_nil_2 | intros d Hin; by apply elem_of_nil in Hin
      | apply NoDup_nil_2 | intros id Hin; by apply elem_of_nil in Hin ].
  - cbn [firstCondition].
    change (referencesOf (ReferTo d :: events)) with (d :: referencesOf events).
    change (creationsOf (ReferTo d :: events)) with (creationsOf events).
    rewrite NoDup_cons. destruct (registry !! d) as [found |] eqn:Hd.
    + rewrite IH. split.
      * intros (Hnd & Hpresent & Hcreations). split_and!; try tauto.
        -- intros Hin. destruct (Hpresent d Hin) as [x Hx].
           by rewrite lookup_delete_eq in Hx.
        -- intros d' [-> | Hin]%elem_of_cons; [by rewrite Hd |].
           destruct (Hpresent d' Hin) as [x Hx].
           apply lookup_delete_Some in Hx as [_ Hx]. by rewrite Hx.
      * intros ((Hnotin & Hnd) & Hpresent & Hcreations). split_and!; try tauto.
        intros d' Hin. rewrite lookup_delete_ne by (intros ->; done).
        apply Hpresent. by right.
    + split; [done |]. intros (_ & Hpresent & _).
      destruct (Hpresent d) as [x Hx]; [by left | by rewrite Hd in Hx].
  - cbn [firstCondition].
    change (referencesOf (Create id :: events)) with (referencesOf events).
    change (creationsOf (Create id :: events)) with (id :: creationsOf events).
    rewrite NoDup_cons. destruct (bool_decide (id ∈ created)) eqn:Hc.
    { apply bool_decide_eq_true in Hc. split; [done |].
      intros (_ & _ & _ & Hfresh). destruct (Hfresh id) as [Hn _]; [by left | done]. }
    apply bool_decide_eq_false in Hc.
    destruct (hasNode v id) eqn:Hhas.
    { split; [done |]. intros (_ & _ & _ & Hfresh).
      destruct (Hfresh id) as [_ Hn]; [by left | congruence]. }
    rewrite IH. split.
    + intros (Hnd & Hpresent & Hndc & Hfresh). split_and!; try tauto.
      * intros Hin. destruct (Hfresh id Hin) as [Hn _]. set_solver.
      * intros id' [-> | Hin]%elem_of_cons; [done |].
        destruct (Hfresh id' Hin) as [Hn Hv]. split; [set_solver | done].
    + intros (Hnd & Hpresent & (Hnotin & Hndc) & Hfresh). split_and!; try tauto.
      intros id' Hin. destruct (Hfresh id') as [Hn Hv]; [by right |].
      split; [| done]. intros [->%elem_of_singleton | Hin']%elem_of_union; done.
Qed.

Section BuildApplied.
Context `{EditUtilities}.

(** X1. A Build is applied exactly when its destination is free, every
    detached reference of the source (at any depth) is registered and
    referenced once, and the identifiers of its inline nodes (at any depth)
    are pairwise distinct and absent from the view. The order of the
    traversal plays no part in it. *)
Theorem applyBuild_applied_iff (change : Build.t) (this : Transaction) :
  (dispatchChange (ChangeBuild change) this).1 = Normal EditResult.Applied ↔
  detached this !! Build.destination change = None
  ∧ NoDup (allReferences (Build.source change))
  ∧ (∀ d, d ∈ allReferences (Build.source change) → is_Some (detached this !! d))
  ∧ NoDup (allIdentifiers (Build.source change))
  ∧ (∀ id, id ∈ allIdentifiers (Build.source change) →
       hasNode (view this) id = false).
Proof.
  cbn [dispatchChange].
  rewrite <- (buildEvents_references (Build.source change)).
  rewrite <- (buildEvents_creations (Build.source change)).
  setoid_rewrite <- (buildEvents_references (Build.source change)).
  setoid_rewrite <- (buildEvents_creations (Build.source change)).
  destruct (detached this !! Build.destination change) as [ids |] eqn:Hdest.
  - rewrite applyBuild_occupied by (by rewrite Hdest). cbn. split; [done |].
    by intros [? _].
  - destruct this as [v registry]. cbn [view detached] in *.
    destruct (applyBuild_run change v registry Hdest) as (nodes & ids & ->).
    pose proof (firstCondition_applied_iff v
                  (buildEvents (Build.source change)) registry ∅) as Hiff.
    destruct (firstCondition v registry ∅ _) as [[| |] registry'];
      cbn [fst] in *.
    + split; [done |]. intros (_ & Hrest).
      assert (EditResult.Malformed = EditResult.Applied) as Habs; [| done].
      apply Hiff. destruct Hrest as (? & ? & ? & Hfresh). split_and!; try done.
      intros id Hin. split; [set_solver | by apply Hfresh].
    + split; [done |]. intros (_ & Hrest).
      assert (EditResult.Invalid = EditResult.Applied) as Habs; [| done].
      apply Hiff. destruct Hrest as (? & ? & ? & Hfresh). split_and!; try done.
      intros id Hin. split; [set_solver | by apply Hfresh].
    + split; [| done]. intros _.
      destruct Hiff as [(? & ? & ? & Hfresh) _]; [done |].
      split_and!; try done. intros id Hin. by apply Hfresh.
Qed.

End BuildApplied.

(** ** The loops on their successful path, for any closures *)

Lemma lookup_foldr_delete_keys `{Countable K} {V} (m : gmap K V) (ks : list K) (k : K) :
  foldr delete m ks !! k = if bool_decide (k ∈ ks) then None else m !! k.
Proof.
  induction ks as [| x ks IH]; cbn [foldr].
  - rewrite bool_decide_eq_false_2; [done | apply not_elem_of_nil].
  - destruct (decide (x = k)) as [-> | Hne].
    + rewrite lookup_delete_eq.
      rewrite bool_decide_eq_true_2; [done | apply list_elem_of_here].
    + rewrite lookup_delete_ne by done. rewrite IH.
      apply (f_equal (fun b : bool => if b then None else m !! k)).
      apply bool_decide_ext. rewrite elem_of_cons. naive_solver.
Qed.

Lemma foldr_delete_app `{Countable K} {V} (m : gmap K V) (ks ks' : list K) :
  foldr delete (foldr delete m ks) ks' = foldr delete m (ks ++ ks').
Proof.
  apply map_eq. intros k. rewrite !lookup_foldr_delete_keys.
  destruct (bool_decide (k ∈ ks')) eqn:E'; destruct (bool_decide (k ∈ ks)) eqn:E;
    destruct (bool_decide (k ∈ ks ++ ks')) eqn:E''; try done;
    rewrite ?bool_decide_eq_true, ?bool_decide_eq_false in *;
    exfalso; rewrite elem_of_app in E''; tauto.
Qed.

Lemma foldr_delete_subseteq `{Countable K} {V} (m : gmap K V) (ks : list K) :
  foldr delete m ks ⊆ m.
Proof.
  induction ks as [| k ks IH]; [done |].
  cbn [foldr]. etrans; [apply delete_subseteq | exact IH].
Qed.

Lemma expandIds_agree (R R' : gmap Z (list string)) sequence :
  (∀ d, d ∈ referencesIn sequence → R' !! d = R !! d) →
  expandIds R' sequence = expandIds R sequence.
Proof.
  unfold expandIds.
  induction sequence as [| [d | id def es p] sequence IH]; intros Hagree; [done | |].
  - cbn [List.map concat]. rewrite Hagree by (rewrite referencesIn_ref; left).
    f_equal. apply IH. intros d' Hin. apply Hagree. rewrite referencesIn_ref.
    by right.
  - cbn [List.map concat]. f_equal. apply IH. intros d' Hin. by apply Hagree.
Qed.

Lemma expandIds_app R xs ys :
  expandIds R (xs ++ ys) = expandIds R xs ++ expandIds R ys.
Proof. unfold expandIds. by rewrite map_app, concat_app. Qed.

Section SuccessfulLoops.
Context {L : Type}.
Variable onCreateNode : NodeId → SnapshotNode → M (Transaction * L) bool.
Variable onInvalidDetachedId : M (Transaction * L) unit.

Lemma getDetachedNodeIds_found d v R (l : L) found σ' :
  getDetachedNodeIds d onInvalidDetachedId (mkTransaction v R, l)
    = (Normal (Some found), σ') →
  R !! d = Some found ∧ σ' = (mkTransaction v (delete d R), l).
Proof.
  unfold getDetachedNodeIds. run. destruct (R !! d) as [ids |].
  - by intros [= <- <-].
  - destruct (onInvalidDetachedId _) as [[[] | msg |] σ'']; discriminate.
Qed.

Lemma forEachEditNode_success sequence : ∀ ids stack v R (l : L) ids' stack' σ',
  forEachEditNode onInvalidDetachedId sequence ids stack (mkTransaction v R, l)
    = (Normal (Some (ids', stack')), σ') →
  ids' = ids ++ expandIds R sequence
  ∧ stack' = rev (inlineIn sequence) ++ stack
  ∧ σ' = (mkTransaction v (foldr delete R (referencesIn sequence)), l)
  ∧ NoDup (referencesIn sequence)
  ∧ (∀ d, d ∈ referencesIn sequence → is_Some (R !! d)).
Proof.
  induction sequence as [| [d | id def es p] sequence IH];
    intros ids stack v R l ids' stack' σ' Hrun.
  - injection Hrun as <- <- <-. rewrite app_nil_r. split_and!; try done.
    + apply NoDup_nil_2.
    + intros d Hin. by apply elem_of_nil in Hin.
  - cbn [forEachEditNode] in Hrun. rewrite bind_run in Hrun.
    destruct (getDetachedNodeIds d onInvalidDetachedId _)
      as [[[found |] | msg |] σ1] eqn:Hget; try discriminate.
    apply getDetachedNodeIds_found in Hget as [Hd ->].
    apply IH in Hrun as (-> & -> & -> & Hnd & Hpresent).
    rewrite referencesIn_ref, inlineIn_ref.
    assert (d ∉ referencesIn sequence) as Hnotin.
    { intros Hin. destruct (Hpresent d Hin) as [x Hx].
      by rewrite lookup_delete_eq in Hx. }
    assert (∀ d', d' ∈ referencesIn sequence → delete d R !! d' = R !! d')
      as Hagree.
    { intros d' Hin. apply lookup_delete_ne. by intros ->. }
    split_and!.
    + unfold expandIds at 2. cbn [List.map concat]. rewrite Hd. cbn [default].
      fold (expandIds R sequence). rewrite <- app_assoc. do 2 f_equal.
      by apply expandIds_agree.
    + done.
    + f_equal. f_equal. change (d :: referencesIn sequence)
        with ([d] ++ referencesIn sequence).
      by rewrite <- foldr_delete_app.
    + by apply NoDup_cons.
    + intros d' [-> | Hin]%elem_of_cons; [by rewrite Hd |].
      rewrite <- Hagree by done. by apply Hpresent.
  - cbn [forEachEditNode] in Hrun.
    apply IH in Hrun as (-> & -> & -> & Hnd & Hpresent).
    rewrite referencesIn_node, inlineIn_node. split_and!; try done.
    + unfold expandIds at 2. cbn [List.map concat].
      fold (expandIds R sequence). by rewrite <- app_assoc.
    + cbn [rev]. by rewrite <- app_assoc.
Qed.

Lemma forEachTrait_success entries : ∀ traits stack v R (l : L) traits' stack' σ',
  forEachTrait onInvalidDetachedId entries traits stack (mkTransaction v R, l)
    = (Normal (Some (traits', stack')), σ') →
  traits' = foldl (fun m e => <[e.1 := expandIds R e.2]> m) traits entries
  ∧ stack' = rev (inlineIn (childrenIn entries)) ++ stack
  ∧ σ' = (mkTransaction v (foldr delete R (referencesIn (childrenIn entries))), l)
  ∧ NoDup (referencesIn (childrenIn entries))
  ∧ (∀ d, d ∈ referencesIn (childrenIn entries) → is_Some (R !! d)).
Proof.
  induction entries as [| [key children] entries IH];
    intros traits stack v R l traits' stack' σ' Hrun.
  - injection Hrun as <- <- <-. split_and!; try done.
    + apply NoDup_nil_2.
    + intros d Hin. by apply elem_of_nil in Hin.
  - cbn [forEachTrait] in Hrun. rewrite bind_run in Hrun.
    destruct (forEachEditNode onInvalidDetachedId children [] stack _)
      as [[[[childIds stack1] |] | msg |] σ1] eqn:Hchildren; try discriminate.
    apply forEachEditNode_success in Hchildren as (-> & -> & -> & Hnd1 & Hp1).
    apply IH in Hrun as (-> & -> & -> & Hnd & Hpresent).
    unfold childrenIn. cbn [List.map concat snd]. fold (childrenIn entries).
    rewrite referencesIn_app, inlineIn_app, rev_app_distr.
    assert (∀ d, d ∈ referencesIn (childrenIn entries) →
                 (d ∉ referencesIn children) ∧
                 foldr delete R (referencesIn children) !! d = R !! d) as Hsep.
    { intros d Hin. destruct (Hpresent d Hin) as [x Hx].
      rewrite lookup_foldr_delete_keys in Hx |- *.
      destruct (bool_decide (d ∈ referencesIn children)) eqn:E; [done |].
      by apply bool_decide_eq_false in E. }
    split_and!.
    + cbn [foldl fst snd app]. revert Hsep. clear.
      generalize (<[key := expandIds R children]> traits).
      induction entries as [| [k cs] entries IHe]; intros m Hsep; [done |].
      cbn [foldl fst snd]. rewrite IHe.
      * do 2 f_equal. apply expandIds_agree. intros d Hin. apply Hsep.
        unfold childrenIn. cbn [List.map concat snd]. rewrite referencesIn_app.
        apply elem_of_app. by left.
      * intros d Hin. apply Hsep. unfold childrenIn. cbn [List.map concat snd].
        rewrite referencesIn_app. apply elem_of_app. by right.
    + by rewrite <- app_assoc.
    + by rewrite foldr_delete_app.
    + apply NoDup_app. split_and!; [done | | done].
      intros d Hin1 Hin2. by destruct (Hsep d Hin2).
    + intros d [Hin | Hin]%elem_of_app; [by apply Hp1 |].
      destruct (Hsep d Hin) as [_ <-]. by apply Hpresent.
Qed.

(** The [while] loop returns the top-level ids it was given, or
    [undefined]. *)
Lemma whileUnprocessed_returns fuel : ∀ top stack (σ σ' : Transaction * L) res,
  whileUnprocessed onCreateNode onInvalidDetachedId fuel top stack σ
    = (Normal (Some res), σ') →
  res = top.
Proof.
  induction fuel as [| fuel IH]; intros top stack σ σ' res Hrun.
  - destruct stack; [by injection Hrun as <- | discriminate].
  - destruct stack as [| [d | id def es p] stack]; cbn [whileUnprocessed] in Hrun.
    + by injection Hrun as <-.
    + discriminate.
    + rewrite bind_run in Hrun.
      destruct (forEachTrait onInvalidDetachedId es ∅ stack σ)
        as [[[[traits stack1] |] | msg |] σ1]; try discriminate.
      rewrite bind_run in Hrun.
      destruct (onCreateNode _ _ σ1) as [[[] | msg |] σ2]; try discriminate.
      by apply IH in Hrun.
Qed.

End SuccessfulLoops.

(** ** Occurrence in a fragment *)

Lemma Occurs_mono node s1 s2 :
  (∀ x, x ∈ s1 → x ∈ s2) → Occurs node s1 → Occurs node s2.
Proof.
  intros Hsub Hocc.
  induction Hocc as [node s Hin | node id def es p s Hparent IH Hin].
  - apply occurs_here. by apply Hsub.
  - eapply occurs_below; [by apply IH | exact Hin].
Qed.

Lemma Occurs_children node id def es p s :
  Occurs (TreeNode id def es p) s → Occurs node (childrenIn es) → Occurs node s.
Proof.
  intros Hparent Hocc. remember (childrenIn es) as cs eqn:Hcs.
  induction Hocc as [node s' Hin | node id' def' es' p' s' Hq IH Hin]; subst.
  - by eapply occurs_below.
  - eapply occurs_below; [by apply IH | exact Hin].
Qed.

Lemma Occurs_cons_inv node node0 rest :
  Occurs node (node0 :: rest) →
  node = node0
  ∨ (∃ id def es p, node0 = TreeNode id def es p ∧ Occurs node (childrenIn es))
  ∨ Occurs node rest.
Proof.
  intros Hocc. remember (node0 :: rest) as s eqn:Hs.
  induction Hocc as [node s Hin | node id def es p s Hq IH Hin]; subst.
  - apply elem_of_cons in Hin as [-> | Hin]; [by left |].
    right. right. by apply occurs_here.
  - destruct (IH eq_refl) as [<- | [(id' & def' & es' & p' & -> & Hq') | Hq']].
    + right. left. exists id, def, es, p. split; [done |]. by apply occurs_here.
    + right. left. exists id', def', es', p'. split; [done |].
      by eapply occurs_below.
    + right. right. by eapply occurs_below.
Qed.

Lemma elem_of_inlineIn node s :
  node ∈ inlineIn s ↔ node ∈ s ∧ isDetachedSequenceId node = false.
Proof.
  induction s as [| [d | id def es p] s IH].
  - split; [by intros ?%elem_of_nil | by intros [?%elem_of_nil _]].
  - rewrite inlineIn_ref, IH, elem_of_cons. split; [tauto |].
    by intros [[-> | ?] ?].
  - rewrite inlineIn_node, !elem_of_cons, IH. split.
    + intros [-> | [? ?]]; [by split; [left |] | tauto].
    + intros [[-> | ?] ?]; [by left | tauto].
Qed.

Lemma elem_of_rev_list {A} (x : A) (l : list A) : x ∈ rev l ↔ x ∈ l.
Proof. rewrite !list_elem_of_In. symmetry. apply in_rev. Qed.

Lemma Occurs_inlineIn node s :
  Occurs node s → isDetachedSequenceId node = false → Occurs node (inlineIn s).
Proof.
  intros Hocc.
  induction Hocc as [node s Hin | node id def es p s Hq IH Hin]; intros Hinline.
  - apply occurs_here. by apply elem_of_inlineIn.
  - eapply occurs_below; [by apply IH | exact Hin].
Qed.

(** The occurrences below a stack with an inline node on top are that node
    and the occurrences below the stack the loop continues with. *)
Lemma Occurs_pop node id def es p rest :
  isDetachedSequenceId node = false →
  Occurs node (TreeNode id def es p :: rest) ↔
  node = TreeNode id def es p
  ∨ Occurs node (rev (inlineIn (childrenIn es)) ++ rest).
Proof.
  intros Hinline. split.
  - intros [-> | [(id' & def' & es' & p' & [= <- <- <- <-] & Hocc) | Hocc]]
      %Occurs_cons_inv; [by left | |].
    + right. apply (Occurs_mono _ (inlineIn (childrenIn es))).
      * intros x Hx. apply elem_of_app. left. by apply elem_of_rev_list.
      * by apply Occurs_inlineIn.
    + right. eapply Occurs_mono; [| exact Hocc].
      intros x Hx. apply elem_of_app. by right.
  - intros [-> | Hocc]; [apply occurs_here; left |].
    assert (Occurs node (childrenIn es ++ rest)) as Hocc'.
    { eapply Occurs_mono; [| exact Hocc]. intros x [Hx | Hx]%elem_of_app.
      - apply elem_of_rev_list, elem_of_inlineIn in Hx as [Hx _].
        apply elem_of_app. by left.
      - apply elem_of_app. by right. }
    clear Hocc. remember (childrenIn es ++ rest) as s eqn:Hs.
    induction Hocc' as [node s Hin | node id' def' es' p' s Hq IH Hin]; subst.
    + apply elem_of_app in Hin as [Hin | Hin].
      * eapply occurs_below; [apply occurs_here; left | exact Hin].
      * apply occurs_here. by right.
    + eapply occurs_below; [by apply IH | exact Hin].
Qed.

Lemma traitsOf_agree (R R' : gmap Z (list string)) entries :
  (∀ d, d ∈ referencesIn (childrenIn entries) → R' !! d = R !! d) →
  traitsOf R' entries = traitsOf R entries.
Proof.
  unfold traitsOf. generalize (∅ : gmap string (list string)).
  induction entries as [| [key cs] entries IH]; intros m Hagree; [done |].
  cbn [foldl fst snd].
  rewrite (expandIds_agree R R' cs).
  - apply IH. intros d Hin. apply Hagree. unfold childrenIn.
    cbn [List.map concat snd]. rewrite referencesIn_app. apply elem_of_app.
    by right.
  - intros d Hin. apply Hagree. unfold childrenIn.
    cbn [List.map concat snd]. rewrite referencesIn_app. apply elem_of_app.
    by left.
Qed.

(** ** The records of an applied Build *)

Lemma snapshotNodeOf_agree (R R' : gmap Z (list string)) id def es p :
  R' ⊆ R →
  (∀ d, d ∈ referencesIn (childrenIn es) → is_Some (R' !! d)) →
  snapshotNodeOf R' (TreeNode id def es p) = snapshotNodeOf R (TreeNode id def es p).
Proof.
  intros Hsub Hpresent. cbn [snapshotNodeOf]. do 2 f_equal.
  apply traitsOf_agree. intros d Hin. destruct (Hpresent d Hin) as [x Hx].
  rewrite Hx. symmetry. by eapply lookup_weaken.
Qed.

Lemma snapshotNodeOf_identifier R node record :
  snapshotNodeOf R node = Some record →
  ∃ def es p, node = TreeNode (identifier record) def es p.
Proof.
  destruct node as [d | id def es p]; [done |]. intros [= <-]. cbn. eauto.
Qed.

Lemma Occurs_nil node : ¬ Occurs node [].
Proof.
  intros Hocc. remember [] as s eqn:Hs.
  induction Hocc as [node s Hin | node id def es p s Hq IH Hin]; subst.
  - by apply elem_of_nil in Hin.
  - by apply IH.
Qed.

Lemma build_nodes_empty v (R : gmap Z (list string)) l :
  ∃ l',
    (mkTransaction v R, l)
    = (mkTransaction v (foldr delete R (referencesOf (eventsOfStack []))), l')
    ∧ buildVerdict l' = buildVerdict l
    ∧ BuildLocals.map l ⊆ BuildLocals.map l'
    ∧ (∀ id record, BuildLocals.map l' !! id = Some record →
         BuildLocals.map l !! id = Some record
         ∨ (hasNode v id = false ∧ identifier record = id
            ∧ ∃ node, Occurs node [] ∧ snapshotNodeOf R node = Some record))
    ∧ (∀ node record, Occurs node [] → snapshotNodeOf R node = Some record →
         BuildLocals.map l' !! identifier record = Some record)
    ∧ (∀ id def es p, Occurs (TreeNode id def es p) [] →
         ∀ d, d ∈ referencesIn (childrenIn es) → is_Some (R !! d)).
Proof.
  exists l. split_and!; try done.
  - intros id record Hid. by left.
  - intros node record Hocc. by destruct (Occurs_nil node).
  - intros id def es p Hocc. by destruct (Occurs_nil (TreeNode id def es p)).
Qed.

(** The [while] loop under the closures of [applyBuild], when it returns
    the top-level ids: the flags are untouched, the map has gained exactly
    the records of the inline nodes occurring below the stack, each under
    an identifier the view does not have, and every reference among their
    children was registered. *)
Lemma whileUnprocessed_build_nodes fuel : ∀ top stack v R l res σ',
  whileUnprocessed buildOnCreateNode buildOnInvalidDetachedId fuel top stack
    (mkTransaction v R, l) = (Normal (Some res), σ') →
  ∃ l',
    σ' = (mkTransaction v (foldr delete R (referencesOf (eventsOfStack stack))), l')
    ∧ buildVerdict l' = buildVerdict l
    ∧ BuildLocals.map l ⊆ BuildLocals.map l'
    ∧ (∀ id record, BuildLocals.map l' !! id = Some record →
         BuildLocals.map l !! id = Some record
         ∨ (hasNode v id = false ∧ identifier record = id
            ∧ ∃ node, Occurs node stack ∧ snapshotNodeOf R node = Some record))
    ∧ (∀ node record, Occurs node stack → snapshotNodeOf R node = Some record →
         BuildLocals.map l' !! identifier record = Some record)
    ∧ (∀ id def es p, Occurs (TreeNode id def es p) stack →
         ∀ d, d ∈ referencesIn (childrenIn es) → is_Some (R !! d)).
Proof.
  induction fuel as [| fuel IH]; intros top stack v R l res σ' Hrun.
  - destruct stack as [| node stack]; [| discriminate].
    injection Hrun as <- <-. apply build_nodes_empty.
  - destruct stack as [| [d | id def es p] stack]; cbn [whileUnprocessed] in Hrun.
    + injection Hrun as <- <-. apply build_nodes_empty.
    + discriminate.
    + rewrite bind_run in Hrun.
      destruct (forEachTrait buildOnInvalidDetachedId es ∅ stack _)
        as [[[[traits stack1] |] | msg |] σ1] eqn:Htraits; try discriminate.
      apply forEachTrait_success in Htraits as (-> & -> & -> & Hnd0 & Hp0).
      fold (traitsOf R es) in Hrun.
      cbn [identifier] in Hrun. rewrite bind_run, buildOnCreateNode_run in Hrun.
      destruct (bool_decide (id ∈ dom (BuildLocals.map l))) eqn:Hdup;
        [discriminate |].
      destruct (hasNode v id) eqn:Hhas; [discriminate |].
      apply bool_decide_eq_false in Hdup. apply not_elem_of_dom in Hdup.
      set (R1 := foldr delete R (referencesIn (childrenIn es))) in *.
      set (record0 := mkSnapshotNode id def (traitsOf R es) p) in *.
      apply IH in Hrun
        as (l' & -> & Hverdict & Hsub & Hsound & Hcomplete & Hpresent).
      cbn [BuildLocals.map] in Hsub, Hsound.
      assert (R1 ⊆ R) as HR1 by apply foldr_delete_subseteq.
      assert (∀ node record,
                Occurs node (rev (inlineIn (childrenIn es)) ++ stack) →
                snapshotNodeOf R1 node = Some record ↔
                snapshotNodeOf R node = Some record) as Hsame.
      { intros [d | id' def' es' p'] record Hocc; [done |].
        rewrite (snapshotNodeOf_agree R R1); [done | done |].
        by apply (Hpresent id' def' es' p'). }
      exists l'. split_and!.
      * f_equal. f_equal. subst R1. rewrite foldr_delete_app. f_equal.
        rewrite eventsOfStack_cons, eventsOfNode_TreeNode, eventsOfStack_app.
        rewrite !referencesOf_app, referencesOf_refs, referencesOf_create.
        by rewrite <- !app_assoc.
      * exact Hverdict.
      * etrans; [| exact Hsub]. by apply insert_subseteq.
      * intros id' record Hrecord.
        destruct (Hsound id' record Hrecord)
          as [Hold | (Hv & Hid & node & Hocc & Hnode)].
        -- destruct (decide (id = id')) as [<- | Hne].
           ++ rewrite lookup_insert_eq in Hold. injection Hold as <-.
              right. split_and!; [done | done |].
              exists (TreeNode id def es p).
              split; [apply occurs_here; left | done].
           ++ rewrite lookup_insert_ne in Hold by done. by left.
        -- right. split_and!; [done | done |]. exists node. split.
           ++ apply Occurs_pop; [| by right].
              destruct node; [done | done].
           ++ by apply Hsame.
      * intros node record Hocc Hnode.
        destruct (snapshotNodeOf_identifier R node record Hnode)
          as (def' & es' & p' & ->).
        apply Occurs_pop in Hocc as [[= Hid -> -> ->] | Hocc]; [| | done].
        -- rewrite Hid in Hnode |- *. injection Hnode as <-.
           eapply lookup_weaken; [| exact Hsub]. apply lookup_insert_eq.
        -- apply (Hcomplete _ record Hocc). by apply Hsame.
      * intros id' def' es' p' Hocc d' Hin.
        apply Occurs_pop in Hocc as [[= -> -> -> ->] | Hocc]; [| | done].
        -- by apply Hp0.
        -- destruct (Hpresent id' def' es' p' Hocc d' Hin) as [x Hx].
           exists x. by eapply lookup_weaken.
Qed.

Lemma Occurs_identifiers node s :
  Occurs node s → ∀ id, id ∈ identifiersWithin node → id ∈ allIdentifiers s.
Proof.
  intros Hocc.
  induction Hocc as [node s Hin | node id' def es p s Hq IH Hin]; intros id Hid.
  - unfold allIdentifiers. apply list_elem_of_In, in_concat.
    exists (identifiersWithin node). split; [| by apply list_elem_of_In].
    apply in_map. by apply list_elem_of_In.
  - apply IH. rewrite identifiersWithin_TreeNode. right.
    unfold allIdentifiers. apply list_elem_of_In, in_concat.
    exists (identifiersWithin node). split; [| by apply list_elem_of_In].
    apply in_map. by apply list_elem_of_In.
Qed.

Lemma Occurs_source node source :
  isDetachedSequenceId node = false →
  Occurs node (rev (inlineIn source) ++ []) ↔ Occurs node source.
Proof.
  intros Hinline. rewrite app_nil_r. split.
  - apply Occurs_mono. intros x Hx.
    by apply elem_of_rev_list, elem_of_inlineIn in Hx as [Hx _].
  - intros Hocc. apply (Occurs_mono _ (inlineIn source)).
    + intros x Hx. by apply elem_of_rev_list.
    + by apply Occurs_inlineIn.
Qed.

(** What an applied Build has done: the destination was free; the
    registry lost every reference of the traversal and gained the
    top-level ids under the destination; the view gained a map of records
    that holds exactly the records of the inline nodes of the source, none
    of them under an identifier the view had. *)
Lemma applyBuild_applied_inv (change : Build.t) v R this' :
  applyBuild change (mkTransaction v R) = (Normal EditResult.Applied, this') →
  R !! Build.destination change = None
  ∧ ∃ nodes,
      this' = mkTransaction (insertSnapshotNodes v nodes)
                (<[Build.destination change := expandIds R (Build.source change)]>
                   (foldr delete R (referencesOf (buildEvents (Build.source change)))))
      ∧ (∀ id record, nodes !! id = Some record →
           hasNode v id = false ∧ identifier record = id
           ∧ ∃ node, Occurs node (Build.source change)
                     ∧ snapshotNodeOf R node = Some record)
      ∧ (∀ node record, Occurs node (Build.source change) →
           snapshotNodeOf R node = Some record →
           nodes !! identifier record = Some record).
Proof.
  unfold applyBuild. rewrite bind_run. cbn [get detached].
  destruct (R !! Build.destination change) as [ids |] eqn:Hdest.
  { decided. unfold ret. discriminate. }
  decided. rewrite bind_run. unfold withLocals.
  destruct (createSnapshotNodesForTree _ _ _ _) as [[res | msg |] [this1 l1]] eqn:Hcreate;
    try discriminate.
  destruct (_ || _); [unfold ret; discriminate |].
  destruct (BuildLocals.idAlreadyPresent l1); [unfold ret; discriminate |].
  destruct res as [res |]; [| run; discriminate].
  unfold createSnapshotNodesForTree in Hcreate. rewrite bind_run in Hcreate.
  destruct (forEachEditNode _ _ _ _ _) as [[[[top stack1] |] | msg |] σ1] eqn:Htop;
    try discriminate.
  apply forEachEditNode_success in Htop as (-> & -> & -> & Hnd & Hpresent).
  pose proof (whileUnprocessed_returns _ _ _ _ _ _ _ _ Hcreate) as ->.
  apply whileUnprocessed_build_nodes in Hcreate
    as (l' & [= -> ->] & _ & _ & Hsound & Hcomplete & Hchildren).
  set (R1 := foldr delete R (referencesIn (Build.source change))) in *.
  assert (∀ node record,
            Occurs node (rev (inlineIn (Build.source change)) ++ []) →
            snapshotNodeOf R1 node = Some record ↔
            snapshotNodeOf R node = Some record) as Hsame.
  { intros [d | id' def' es' p'] record Hocc; [done |].
    rewrite (snapshotNodeOf_agree R R1); [done | apply foldr_delete_subseteq |].
    by apply (Hchildren id' def' es' p'). }
  run. intros [= <-]. split; [done |]. exists (BuildLocals.map l').
  split_and!.
  - f_equal. cbn [app]. f_equal. subst R1. rewrite foldr_delete_app. f_equal.
    unfold buildEvents. rewrite referencesOf_app, referencesOf_refs. f_equal.
    by rewrite app_nil_r, <- inlineIn_rev, eventsOfStack_inlineIn.
  - intros id record Hrecord.
    destruct (Hsound id record Hrecord)
      as [Hold | (Hv & Hid & node & Hocc & Hnode)]; [done |].
    split_and!; [done | done |]. exists node. split.
    + apply Occurs_source; [| done]. by destruct node.
    + by apply Hsame.
  - intros node record Hocc Hnode.
    assert (Occurs node (rev (inlineIn (Build.source change)) ++ [])) as Hocc'.
    { apply Occurs_source; [| done]. by destruct node. }
    apply (Hcomplete node record Hocc'). by apply Hsame.
Qed.

Lemma identifiers_Occurs node : ∀ id,
  id ∈ identifiersWithin node → ∃ def es p, Occurs (TreeNode id def es p) [node].
Proof.
  induction node as [d | id0 def0 es0 p0 IH] using EditNode_nested_ind;
    intros id Hid.
  - by apply elem_of_nil in Hid.
  - rewrite identifiersWithin_TreeNode in Hid.
    apply elem_of_cons in Hid as [-> | Hid].
    + exists def0, es0, p0. apply occurs_here. left.
    + unfold allIdentifiers in Hid.
      apply list_elem_of_In, in_concat in Hid as (ids & Hids & Hin).
      apply in_map_iff in Hids as (c & <- & Hc).
      apply list_elem_of_In in Hc, Hin.
      rewrite Forall_forall in IH.
      destruct (IH c Hc id Hin) as (def & es & p & Hocc).
      exists def, es, p.
      apply (Occurs_children _ id0 def0 es0 p0); [apply occurs_here; left |].
      eapply Occurs_mono; [| exact Hocc].
      intros x ->%list_elem_of_singleton. exact Hc.
Qed.

Lemma allIdentifiers_Occurs source id :
  id ∈ allIdentifiers source → ∃ def es p, Occurs (TreeNode id def es p) source.
Proof.
  unfold allIdentifiers. intros Hid.
  apply list_elem_of_In, in_concat in Hid as (ids & Hids & Hin).
  apply in_map_iff in Hids as (node & <- & Hnode).
  apply list_elem_of_In in Hnode, Hin.
  destruct (identifiers_Occurs node id Hin) as (def & es & p & Hocc).
  exists def, es, p. eapply Occurs_mono; [| exact Hocc].
  intros x ->%list_elem_of_singleton. exact Hnode.
Qed.

Section BuildEffects.
Context `{EditUtilities}.

(** X2. An applied Build records under its destination the top-level ids
    of the source in input order (an inline node gives its identifier, a
    detached reference the sequence registered under it), removes from the
    registry every sequence the source references at any depth, and leaves
    every other entry as it was. *)
Theorem applyBuild_applied_registry (change : Build.t) (this this' : Transaction) :
  dispatchChange (ChangeBuild change) this = (Normal EditResult.Applied, this') →
  detached this' !! Build.destination change
    = Some (expandIds (detached this) (Build.source change))
  ∧ ∀ d, d ≠ Build.destination change →
      detached this' !! d
      = if bool_decide (d ∈ allReferences (Build.source change))
        then None else detached this !! d.
Proof.
  destruct this as [v R]. cbn [dispatchChange detached].
  intros (Hfresh & nodes & -> & _)%applyBuild_applied_inv. cbn [detached]. split.
  - apply lookup_insert_eq.
  - intros d Hne. rewrite lookup_insert_ne by done.
    rewrite lookup_foldr_delete_keys.
    apply (f_equal (fun b : bool => if b then None else R !! d)).
    apply bool_decide_ext. by rewrite buildEvents_references.
Qed.

(** X3. After an applied Build the view holds, for every inline node
    occurring in the source at any depth, a record with the node's
    identifier, definition and payload, whose traits map each label to the
    children's ids in order, detached references expanded in place. *)
Theorem applyBuild_applied_records (change : Build.t) (this this' : Transaction) :
  dispatchChange (ChangeBuild change) this = (Normal EditResult.Applied, this') →
  ∀ id def es p,
    Occurs (TreeNode id def es p) (Build.source change) →
    getSnapshotNode (view this') id
    = Some (mkSnapshotNode id def (traitsOf (detached this) es) p).
Proof.
  destruct this as [v R]. cbn [dispatchChange detached].
  intros (Hfresh & nodes & -> & _ & Hcomplete)%applyBuild_applied_inv
    id def es p Hocc.
  unfold getSnapshotNode, insertSnapshotNodes. cbn [view snapshotNodes].
  apply lookup_union_Some_l.
  exact (Hcomplete (TreeNode id def es p) _ Hocc eq_refl).
Qed.

(** X4. An applied Build keeps the root and every record the view had, and
    the nodes of the new view are those of the prior view together with
    the inline identifiers of the source. *)
Theorem applyBuild_applied_view (change : Build.t) (this this' : Transaction) :
  dispatchChange (ChangeBuild change) this = (Normal EditResult.Applied, this') →
  root (view this') = root (view this)
  ∧ (∀ id, hasNode (view this) id = true →
       getSnapshotNode (view this') id = getSnapshotNode (view this) id)
  ∧ (∀ id, hasNode (view this') id = true ↔
       hasNode (view this) id = true
       ∨ id ∈ allIdentifiers (Build.source change)).
Proof.
  destruct this as [v R]. cbn [dispatchChange detached view].
  intros (Hfresh & nodes & -> & Hsound & Hcomplete)%applyBuild_applied_inv.
  cbn [view]. split_and!.
  - done.
  - intros id Hid. unfold getSnapshotNode, insertSnapshotNodes.
    cbn [snapshotNodes]. apply lookup_union_r.
    destruct (nodes !! id) as [record |] eqn:Hrecord; [| done].
    destruct (Hsound id record Hrecord) as (Hv & _). congruence.
  - intros id. rewrite !hasNode_true. unfold insertSnapshotNodes.
    cbn [snapshotNodes]. rewrite lookup_union_is_Some. split.
    + intros [[record Hrecord] | Hold]; [| by left]. right.
      destruct (Hsound id record Hrecord) as (_ & Hid & node & Hocc & Hnode).
      destruct (snapshotNodeOf_identifier R node record Hnode)
        as (def & es & p & ->).
      apply (Occurs_identifiers _ _ Hocc).
      rewrite identifiersWithin_TreeNode, Hid. left.
    + intros [Hold | Hid]; [by right |]. left.
      apply allIdentifiers_Occurs in Hid as (def & es & p & Hocc).
      eexists. exact (Hcomplete (TreeNode id def es p) _ Hocc eq_refl).
Qed.

End BuildEffects.

(** ** [createSnapshotNodesForTree] for any closures *)

Section AnyClosures.
Context {L : Type}.
Variable onCreateNode : NodeId → SnapshotNode → M (Transaction * L) bool.
Variable onInvalidDetachedId : M (Transaction * L) unit.

(** X5. Whatever the two callbacks do, when
    [createSnapshotNodesForTree] returns a list it is the list of the
    top-level ids of the sequence in input order, detached references
    expanded against the registry as it was on entry. *)
Theorem createSnapshotNodesForTree_returns sequence (this : Transaction) (l : L)
    ids σ' :
  createSnapshotNodesForTree sequence onCreateNode onInvalidDetachedId (this, l)
    = (Normal (Some ids), σ') →
  ids = expandIds (detached this) sequence.
Proof.
  destruct this as [v R]. unfold createSnapshotNodesForTree.
  rewrite bind_run.
  destruct (forEachEditNode _ _ _ _ _) as [[[[top stack] |] | msg |] σ1] eqn:Htop;
    try discriminate.
  apply forEachEditNode_success in Htop as (-> & _).
  intros Hloop. by apply whileUnprocessed_returns in Hloop.
Qed.

Hypothesis onCreateNode_keeps_this :
  ∀ id node σ, (onCreateNode id node σ).2.1 = σ.1.
Hypothesis onInvalidDetachedId_keeps_this :
  ∀ σ, (onInvalidDetachedId σ).2.1 = σ.1.

Lemma shrinks_refl this : shrinks this this.
Proof. by split. Qed.

Lemma shrinks_trans t1 t2 t3 : shrinks t1 t2 → shrinks t2 t3 → shrinks t1 t3.
Proof. intros [Hv1 Hd1] [Hv2 Hd2]. split; [congruence | by etrans]. Qed.

Lemma getDetachedNodeIds_shrinks d σ :
  shrinks σ.1 (getDetachedNodeIds d onInvalidDetachedId σ).2.1.
Proof.
  destruct σ as [this l]. unfold getDetachedNodeIds. run.
  destruct (detached this !! d).
  - cbn. split; [done | apply delete_subseteq].
  - pose proof (onInvalidDetachedId_keeps_this (this, l)) as Hkeep.
    destruct (onInvalidDetachedId (this, l)) as [[[] | msg |] σ']; cbn in *;
      rewrite Hkeep; apply shrinks_refl.
Qed.

Lemma forEachEditNode_shrinks sequence : ∀ ids stack σ,
  shrinks σ.1 (forEachEditNode onInvalidDetachedId sequence ids stack σ).2.1.
Proof.
  induction sequence as [| [d | id def es p] sequence IH]; intros ids stack σ.
  - apply shrinks_refl.
  - cbn [forEachEditNode]. rewrite bind_run.
    pose proof (getDetachedNodeIds_shrinks d σ) as Hget.
    destruct (getDetachedNodeIds d onInvalidDetachedId σ)
      as [[[found |] | msg |] σ1]; cbn [fst snd] in *; try done.
    eapply shrinks_trans; [exact Hget | apply IH].
  - cbn [forEachEditNode]. apply IH.
Qed.

Lemma forEachTrait_shrinks entries : ∀ traits stack σ,
  shrinks σ.1 (forEachTrait onInvalidDetachedId entries traits stack σ).2.1.
Proof.
  induction entries as [| [key children] entries IH]; intros traits stack σ.
  - apply shrinks_refl.
  - cbn [forEachTrait]. rewrite bind_run.
    pose proof (forEachEditNode_shrinks children [] stack σ) as Hchildren.
    destruct (forEachEditNode onInvalidDetachedId children [] stack σ)
      as [[[[childIds stack1] |] | msg |] σ1]; cbn [fst snd] in *; try done.
    eapply shrinks_trans; [exact Hchildren | apply IH].
Qed.

Lemma whileUnprocessed_shrinks fuel : ∀ top stack σ,
  shrinks σ.1
    (whileUnprocessed onCreateNode onInvalidDetachedId fuel top stack σ).2.1.
Proof.
  induction fuel as [| fuel IH]; intros top stack σ.
  - destruct stack; apply shrinks_refl.
  - destruct stack as [| [d | id def es p] stack]; cbn [whileUnprocessed];
      try apply shrinks_refl.
    rewrite bind_run.
    pose proof (forEachTrait_shrinks es ∅ stack σ) as Htraits.
    destruct (forEachTrait onInvalidDetachedId es ∅ stack σ)
      as [[[[traits stack1] |] | msg |] σ1]; cbn [fst snd] in *; try done.
    rewrite bind_run.
    pose proof (onCreateNode_keeps_this id
                  (mkSnapshotNode id def traits p) σ1) as Hkeep.
    cbn [identifier].
    destruct (onCreateNode id _ σ1) as [[[] | msg |] σ2]; cbn [fst snd] in *;
      try (unfold ret; cbn [fst snd]; by rewrite Hkeep).
    eapply shrinks_trans; [exact Htraits |]. rewrite <- Hkeep. apply IH.
Qed.

Lemma resolves_nil this : resolves this this [].
Proof.
  split_and!; [done | | by intros d ?%elem_of_nil | constructor].
  intros d. rewrite bool_decide_eq_false_2; [done | apply not_elem_of_nil].
Qed.

Lemma resolves_app t1 t2 t3 r1 r2 :
  resolves t1 t2 r1 → resolves t2 t3 r2 → resolves t1 t3 (r1 ++ r2).
Proof.
  intros (Hv1 & Hl1 & Hr1 & Hn1) (Hv2 & Hl2 & Hr2 & Hn2).
  assert (∀ d, d ∈ r1 → d ∈ r2 → False) as Hsep.
  { intros d Hin1 Hin2. destruct (Hr2 d Hin2) as [x Hx]. rewrite Hl1 in Hx.
    by rewrite bool_decide_eq_true_2 in Hx. }
  split_and!.
  - congruence.
  - intros d. rewrite Hl2, Hl1.
    destruct (decide (d ∈ r2)) as [Hin2 | Hin2];
      destruct (decide (d ∈ r1)) as [Hin1 | Hin1].
    + rewrite !bool_decide_eq_true_2; [done | | done]. apply elem_of_app; auto.
    + rewrite !bool_decide_eq_true_2; [done | | done]. apply elem_of_app; auto.
    + rewrite (bool_decide_eq_false_2 (d ∈ r2)) by done.
      rewrite !bool_decide_eq_true_2; [done | | done]. apply elem_of_app; auto.
    + rewrite !bool_decide_eq_false_2; [done | | done | done].
      intros [? | ?]%elem_of_app; tauto.
  - intros d [Hin | Hin]%elem_of_app; [by apply Hr1 |].
    destruct (Hr2 d Hin) as [x Hx]. rewrite Hl1 in Hx.
    destruct (bool_decide (d ∈ r1)); [done | eauto].
  - apply NoDup_app. split_and!; [done | exact Hsep | done].
Qed.

Lemma getDetachedNodeIds_resolves d σ :
  match (getDetachedNodeIds d onInvalidDetachedId σ).1 with
  | Normal (Some _) =>
      resolves σ.1 (getDetachedNodeIds d onInvalidDetachedId σ).2.1 [d]
  | _ => (getDetachedNodeIds d onInvalidDetachedId σ).2.1 = σ.1
  end.
Proof.
  destruct σ as [this l]. unfold getDetachedNodeIds. run.
  destruct (detached this !! d) as [found |] eqn:Hd.
  - cbn. split_and!; [done | | |].
    + intros d'. cbn [detached]. destruct (decide (d' = d)) as [-> | Hne].
      * rewrite lookup_delete_eq.
        rewrite bool_decide_eq_true_2; [done | by apply list_elem_of_singleton].
      * rewrite lookup_delete_ne by done.
        rewrite bool_decide_eq_false_2; [done |].
        by intros ?%list_elem_of_singleton.
    + intros d' ->%list_elem_of_singleton. by rewrite Hd.
    + apply NoDup_singleton.
  - pose proof (onInvalidDetachedId_keeps_this (this, l)) as Hkeep.
    destruct (onInvalidDetachedId (this, l)) as [[[] | msg |] σ']; cbn in *;
      exact Hkeep.
Qed.

Lemma forEachEditNode_resolves sequence : ∀ ids stack σ,
  ∃ resolved,
    resolves σ.1
      (forEachEditNode onInvalidDetachedId sequence ids stack σ).2.1 resolved
    ∧ resolved `prefix_of` referencesIn sequence
    ∧ (∀ x, (forEachEditNode onInvalidDetachedId sequence ids stack σ).1
            = Normal (Some x) → resolved = referencesIn sequence).
Proof.
  induction sequence as [| [d | id def es p] sequence IH]; intros ids stack σ.
  - exists []. split_and!; [apply resolves_nil | done | done].
  - cbn [forEachEditNode]. rewrite bind_run, referencesIn_ref.
    pose proof (getDetachedNodeIds_resolves d σ) as Hget.
    destruct (getDetachedNodeIds d onInvalidDetachedId σ)
      as [[[found |] | msg |] σ1]; cbn [fst snd] in *.
    2-4: exists []; unfold ret; cbn [fst snd]; rewrite Hget;
      split_and!; [apply resolves_nil | apply prefix_nil | done].
    destruct (IH (ids ++ found) stack σ1) as (resolved & Hres & Hpre & Hall).
    exists ([d] ++ resolved). split_and!.
    + by eapply resolves_app.
    + by apply prefix_cons.
    + intros x Hx. cbn [app]. f_equal. by eapply Hall.
  - cbn [forEachEditNode]. rewrite referencesIn_node. apply IH.
Qed.

Lemma forEachTrait_resolves entries : ∀ traits stack σ,
  ∃ resolved,
    resolves σ.1
      (forEachTrait onInvalidDetachedId entries traits stack σ).2.1 resolved
    ∧ resolved `prefix_of` referencesIn (childrenIn entries)
    ∧ (∀ x, (forEachTrait onInvalidDetachedId entries traits stack σ).1
            = Normal (Some x) → resolved = referencesIn (childrenIn entries)).
Proof.
  induction entries as [| [key children] entries IH]; intros traits stack σ.
  - exists []. split_and!; [apply resolves_nil | done | done].
  - cbn [forEachTrait]. rewrite bind_run.
    unfold childrenIn. cbn [List.map concat snd]. fold (childrenIn entries).
    rewrite referencesIn_app.
    destruct (forEachEditNode_resolves children [] stack σ)
      as (r0 & Hres0 & Hpre0 & Hall0).
    destruct (forEachEditNode onInvalidDetachedId children [] stack σ)
      as [[[[childIds stack1] |] | msg |] σ1]; cbn [fst snd] in *.
    2-4: exists r0; unfold ret; cbn [fst snd];
      split_and!; [done | by apply prefix_app_r | done].
    rewrite (Hall0 _ eq_refl) in *.
    destruct (IH (<[key := childIds]> traits) stack1 σ1)
      as (r1 & Hres1 & Hpre1 & Hall1).
    exists (referencesIn children ++ r1). split_and!.
    + by eapply resolves_app.
    + by apply prefix_app.
    + intros x Hx. f_equal. by eapply Hall1.
Qed.

Lemma whileUnprocessed_resolves fuel : ∀ top stack σ,
  ∃ resolved,
    resolves σ.1
      (whileUnprocessed onCreateNode onInvalidDetachedId fuel top stack σ).2.1
      resolved
    ∧ resolved `prefix_of` referencesOf (eventsOfStack stack)
    ∧ (∀ x, (whileUnprocessed onCreateNode onInvalidDetachedId fuel top stack σ).1
            = Normal (Some x) → resolved = referencesOf (eventsOfStack stack)).
Proof.
  induction fuel as [| fuel IH]; intros top stack σ.
  - exists []. destruct stack;
      split_and!; try apply resolves_nil; try apply prefix_nil; done.
  - destruct stack as [| [d | id def es p] stack]; cbn [whileUnprocessed].
    + exists []. split_and!; [apply resolves_nil | done | done].
    + exists []. split_and!; [apply resolves_nil | apply prefix_nil | done].
    + rewrite bind_run.
      rewrite eventsOfStack_cons, eventsOfNode_TreeNode, <- app_assoc.
      rewrite referencesOf_app, referencesOf_refs. cbn [app].
      rewrite referencesOf_create, <- eventsOfStack_app.
      destruct (forEachTrait_resolves es ∅ stack σ)
        as (r0 & Hres0 & Hpre0 & Hall0).
      destruct σ as [[v R] l].
      destruct (forEachTrait onInvalidDetachedId es ∅ stack (mkTransaction v R, l))
        as [[[[traits stack1] |] | msg |] σ1] eqn:Hrun; cbn [fst snd] in *.
      2-4: exists r0; unfold ret; cbn [fst snd];
        split_and!; [done | by apply prefix_app_r | done].
      rewrite (Hall0 _ eq_refl) in *. rewrite bind_run. cbn [identifier].
      apply forEachTrait_success in Hrun as (_ & -> & _).
      pose proof (onCreateNode_keeps_this id
                    (mkSnapshotNode id def traits p) σ1) as Hkeep.
      destruct (onCreateNode id _ σ1) as [[[] | msg |] σ2];
        cbn [fst snd] in *.
      1,3,4: exists (referencesIn (childrenIn es)); unfold ret; cbn [fst snd];
        rewrite Hkeep; split_and!; [done | by apply prefix_app_r | done].
      destruct (IH top (rev (inlineIn (childrenIn es)) ++ stack) σ2)
        as (r1 & Hres1 & Hpre1 & Hall1).
      rewrite Hkeep in Hres1.
      exists (referencesIn (childrenIn es) ++ r1). split_and!.
      * by eapply resolves_app.
      * by apply prefix_app.
      * intros x Hx. f_equal. by eapply Hall1.
Qed.

(** X6. For callbacks that leave the transaction object alone,
    [createSnapshotNodesForTree] never changes the view, and the registry
    it leaves is the registry it was entered with minus exactly the
    sequences it resolved: the resolved sequences are an initial segment,
    without repetition, of the detached references of [sequence] in the
    order of the traversal; each of them was registered on entry; every
    other entry is as it was; and when a list of identifiers is returned,
    every reference of [sequence] has been resolved. *)
Theorem createSnapshotNodesForTree_shrinks sequence σ :
  view (createSnapshotNodesForTree sequence onCreateNode onInvalidDetachedId σ).2.1
    = view σ.1
  ∧ detached (createSnapshotNodesForTree sequence onCreateNode
                onInvalidDetachedId σ).2.1 ⊆ detached σ.1
  ∧ ∃ resolved : list DetachedSequenceId,
      resolved `prefix_of` referencesOf (buildEvents sequence)
      ∧ NoDup resolved
      ∧ (∀ d, d ∈ resolved → is_Some (detached σ.1 !! d))
      ∧ (∀ d, detached (createSnapshotNodesForTree sequence onCreateNode
                          onInvalidDetachedId σ).2.1 !! d
              = if bool_decide (d ∈ resolved) then None
                else detached σ.1 !! d)
      ∧ (∀ ids, (createSnapshotNodesForTree sequence onCreateNode
                   onInvalidDetachedId σ).1 = Normal (Some ids) →
                resolved = referencesOf (buildEvents sequence)).
Proof.
  assert (∃ resolved,
            resolves σ.1
              (createSnapshotNodesForTree sequence onCreateNode
                 onInvalidDetachedId σ).2.1 resolved
            ∧ resolved `prefix_of` referencesOf (buildEvents sequence)
            ∧ (∀ ids, (createSnapshotNodesForTree sequence onCreateNode
                         onInvalidDetachedId σ).1 = Normal (Some ids) →
                      resolved = referencesOf (buildEvents sequence)))
    as (resolved & (Hview & Hlookup & Hheld & Hnodup) & Hpre & Hall).
  { unfold createSnapshotNodesForTree, buildEvents. rewrite bind_run.
    rewrite referencesOf_app, referencesOf_refs.
    destruct (forEachEditNode_resolves sequence [] [] σ)
      as (r0 & Hres0 & Hpre0 & Hall0).
    destruct σ as [[v R] l].
    destruct (forEachEditNode onInvalidDetachedId sequence [] []
                (mkTransaction v R, l))
      as [[[[top stack] |] | msg |] σ1] eqn:Hrun; cbn [fst snd] in *.
    2-4: exists r0; unfold ret; cbn [fst snd];
      split_and!; [done | by apply prefix_app_r | done].
    rewrite (Hall0 _ eq_refl) in *.
    apply forEachEditNode_success in Hrun as (_ & -> & _).
    rewrite app_nil_r, <- inlineIn_rev.
    destruct (whileUnprocessed_resolves (sequenceCount sequence) top
                (inlineIn (rev sequence)) σ1) as (r1 & Hres1 & Hpre1 & Hall1).
    rewrite eventsOfStack_inlineIn in Hpre1, Hall1.
    exists (referencesIn sequence ++ r1). split_and!.
    - by eapply resolves_app.
    - by apply prefix_app.
    - intros x Hx. f_equal. by eapply Hall1. }
  split_and!; [done | | exists resolved; split_and!; done].
  apply map_subseteq_spec. intros d x. rewrite Hlookup.
  by destruct (bool_decide (d ∈ resolved)).
Qed.

End AnyClosures.

(** ** How changes compose *)

Section Compositions.
Context `{EditUtilities}.

(** X7. An applied Insert consumes its source: the source is no longer
    registered, and any further Insert from it, at any destination, is
    Malformed and changes nothing. *)
Theorem applyInsert_consumes (change : Insert.t) (this this' : Transaction) :
  dispatchChange (ChangeInsert change) this = (Normal EditResult.Applied, this') →
  detached this' !! Insert.source change = None
  ∧ ∀ destination,
      dispatchChange
        (ChangeInsert (Insert.mk (Insert.source change) destination)) this'
      = (Normal EditResult.Malformed, this').
Proof.
  cbn [dispatchChange]. unfold applyInsert at 1. run.
  destruct (detached this !! Insert.source change) as [ids |]; [| discriminate].
  destruct (bool_decide _); cbn.
  { destruct (bool_decide _); discriminate. }
  intros [= <-]. cbn [detached].
  assert (delete (Insert.source change) (detached this) !! Insert.source change
          = None) as Hgone by apply lookup_delete_eq.
  split; [exact Hgone |].
  intros destination. unfold applyInsert. run. cbn [Insert.source].
  by rewrite Hgone.
Qed.

(** X8. Detach into a free destination followed by Insert from it moves
    the range: both are applied, the view is [insertIntoTrait] of the
    removed ids into the residual snapshot, and the registry is back to
    what it was. *)
Theorem detach_then_insert (range : StableRange) (d : DetachedSequenceId)
    (place : StablePlace) (this : Transaction) :
  validateStableRange (view this) range = EditValidationResult.Valid →
  detached this !! d = None →
  validateStablePlace (snapshot (detachRange (view this) range)) place
    = EditValidationResult.Valid →
  ∃ this1,
    dispatchChange (ChangeDetach (Detach.mk range (Some d))) this
      = (Normal EditResult.Applied, this1)
    ∧ dispatchChange (ChangeInsert (Insert.mk d place)) this1
      = (Normal EditResult.Applied,
         mkTransaction
           (insertIntoTrait (snapshot (detachRange (view this) range))
              (detachedIds (detachRange (view this) range)) place)
           (detached this)).
Proof.
  intros Hrange Hfresh Hplace. eexists. split.
  - cbn [dispatchChange]. unfold applyDetach. run. cbn [Detach.source].
    rewrite Hrange. decided. cbn [Detach.destination]. rewrite Hfresh.
    decided. reflexivity.
  - cbn [dispatchChange]. unfold applyInsert. run.
    cbn [Insert.source Insert.destination]. rewrite lookup_insert_eq.
    rewrite Hplace. decided. by rewrite delete_insert_id.
Qed.

(** X9. After an applied Build, an Insert from its destination at a valid
    place is applied: it splices the top-level ids of the source into the
    view, and the registry is the one before the Build less the sequences
    the Build referenced. *)
Theorem build_then_insert (change : Build.t) (place : StablePlace)
    (this this1 : Transaction) :
  dispatchChange (ChangeBuild change) this = (Normal EditResult.Applied, this1) →
  validateStablePlace (view this1) place = EditValidationResult.Valid →
  ∃ this2,
    dispatchChange (ChangeInsert (Insert.mk (Build.destination change) place)) this1
      = (Normal EditResult.Applied, this2)
    ∧ view this2
      = insertIntoTrait (view this1)
          (expandIds (detached this) (Build.source change)) place
    ∧ ∀ d, detached this2 !! d
           = if bool_decide (d ∈ allReferences (Build.source change))
             then None else detached this !! d.
Proof.
  destruct this as [v R]. cbn [dispatchChange detached].
  intros (Hfresh & nodes & -> & _)%applyBuild_applied_inv Hplace.
  cbn [view] in Hplace. eexists. split_and!.
  - unfold applyInsert. run. cbn [Insert.source Insert.destination].
    rewrite lookup_insert_eq, Hplace. decided. reflexivity.
  - reflexivity.
  - intros d. cbn [detached]. rewrite delete_insert_eq.
    destruct (decide (d = Build.destination change)) as [-> | Hne].
    + rewrite lookup_delete_eq, Hfresh. by destruct (bool_decide _).
    + rewrite lookup_delete_ne by done. rewrite lookup_foldr_delete_keys.
      apply (f_equal (fun b : bool => if b then None else R !! d)).
      apply bool_decide_ext. by rewrite buildEvents_references.
Qed.

(** X10. SetValue never adds or removes a node and never touches the root
    or the registry, whatever it returns. *)
Theorem applySetValue_keeps_nodes (change : SetValue.t) (this : Transaction) :
  (∀ id, hasNode (view (dispatchChange (ChangeSetValue change) this).2) id
         = hasNode (view this) id)
  ∧ root (view (dispatchChange (ChangeSetValue change) this).2) = root (view this)
  ∧ detached (dispatchChange (ChangeSetValue change) this).2 = detached this.
Proof.
  cbn [dispatchChange]. unfold applySetValue. run.
  destruct (hasNode (view this) (SetValue.nodeToModify change)) eqn:Hhas;
    cbn [negb]; [| done].
  apply hasNode_true in Hhas as [node Hnode].
  unfold getSnapshotNode. rewrite Hnode. cbn. split_and!; try done.
  intros id. unfold hasNode, replaceNodeData. cbn [snapshotNodes].
  apply bool_decide_ext. rewrite lookup_insert_is_Some.
  split.
  - intros [<- | [_ ?]]; [by rewrite Hnode | done].
  - intros Hid. destruct (decide (SetValue.nodeToModify change = id)); tauto.
Qed.

(** X11. The last SetValue on a node wins: after an applied SetValue, a
    SetValue on the same node gives the result and the state it would
    have given without the first. *)
Theorem applySetValue_last_wins (first second : SetValue.t)
    (this this1 : Transaction) :
  dispatchChange (ChangeSetValue first) this = (Normal EditResult.Applied, this1) →
  SetValue.nodeToModify second = SetValue.nodeToModify first →
  dispatchChange (ChangeSetValue second) this1
  = dispatchChange (ChangeSetValue second) this.
Proof.
  cbn [dispatchChange]. unfold applySetValue. run. intros Hfirst ->.
  destruct (hasNode (view this) (SetValue.nodeToModify first)) eqn:Hhas;
    cbn [negb] in *; [| discriminate].
  apply hasNode_true in Hhas as [node Hnode].
  unfold getSnapshotNode in *. rewrite Hnode in *. cbn in Hfirst.
  injection Hfirst as <-. cbn [view detached].
  unfold hasNode, replaceNodeData. cbn [snapshotNodes root].
  rewrite lookup_insert_eq. decided. cbn. rewrite insert_insert_eq.
  by destruct (SetValue.payload second), (SetValue.payload first).
Qed.

(** X12. Applied SetValues on different nodes commute. *)
Theorem applySetValue_commute (a b : SetValue.t) (this ta tab : Transaction) :
  SetValue.nodeToModify a ≠ SetValue.nodeToModify b →
  dispatchChange (ChangeSetValue a) this = (Normal EditResult.Applied, ta) →
  dispatchChange (ChangeSetValue b) ta = (Normal EditResult.Applied, tab) →
  ∃ tb,
    dispatchChange (ChangeSetValue b) this = (Normal EditResult.Applied, tb)
    ∧ dispatchChange (ChangeSetValue a) tb = (Normal EditResult.Applied, tab).
Proof.
  cbn [dispatchChange]. unfold applySetValue. run. intros Hne Ha Hb.
  destruct (hasNode (view this) (SetValue.nodeToModify a)) eqn:Hhasa;
    cbn [negb] in *; [| discriminate].
  apply hasNode_true in Hhasa as [na Hna].
  unfold getSnapshotNode in *. rewrite Hna in *. cbn in Ha.
  injection Ha as <-. cbn [view detached] in Hb.
  unfold hasNode, replaceNodeData in *. cbn [snapshotNodes root] in *.
  rewrite lookup_insert_ne in Hb by done.
  destruct (snapshotNodes (view this) !! SetValue.nodeToModify b)
    as [nb |] eqn:Hnb.
  - revert Hb. decided. cbn. intros [= <-]. eexists. split; [reflexivity |].
    cbn [view detached snapshotNodes].
    rewrite lookup_insert_ne by done. rewrite Hna. decided. cbn.
    by rewrite insert_insert_ne.
  - revert Hb. decided. cbn. discriminate.
Qed.

(** X13. A ValidRetry constraint never returns Invalid. *)
Theorem applyConstraint_valid_retry (change : Constraint.t) (this : Transaction) :
  Constraint.effect change = ValidRetry →
  (dispatchChange (ChangeConstraint change) this).1 ≠ Normal EditResult.Invalid.
Proof.
  intros Heffect. cbn [dispatchChange]. unfold applyConstraint. run.
  rewrite Heffect. decided.
  repeat (match goal with |- context [if ?b then _ else _] => destruct b end;
          cbn; try discriminate).
Qed.

(** X14. After a Detach without destination is applied, a SetValue on any
    of the removed nodes is Invalid. *)
Theorem detach_then_set_value (change : Detach.t) (this this1 : Transaction)
    (id : NodeId) payload :
  Detach.destination change = None →
  dispatchChange (ChangeDetach change) this = (Normal EditResult.Applied, this1) →
  id ∈ detachedIds (detachRange (view this) (Detach.source change)) →
  dispatchChange (ChangeSetValue (SetValue.mk id payload)) this1
  = (Normal EditResult.Invalid, this1).
Proof.
  intros Hnone. cbn [dispatchChange]. unfold applyDetach. run. rewrite Hnone.
  destruct (bool_decide _); cbn.
  { destruct (bool_decide _); discriminate. }
  intros [= <-] Hid. unfold applySetValue. run. cbn [SetValue.nodeToModify].
  rewrite hasNode_deleteNodes. by rewrite bool_decide_eq_true_2.
Qed.

End Compositions.

(** ** The registry as a use-once resource *)

Lemma expandIds_elem R sequence id :
  id ∈ expandIds R sequence →
  (∃ def es p, TreeNode id def es p ∈ sequence)
  ∨ (∃ d ids, DetachedRef d ∈ sequence ∧ R !! d = Some ids ∧ id ∈ ids).
Proof.
  unfold expandIds.
  induction sequence as [| [d | id' def es p] sequence IH]; cbn [List.map concat].
  - by intros ?%elem_of_nil.
  - intros [Hin | Hin]%elem_of_app.
    + right. destruct (R !! d) as [ids |] eqn:Hd; [| by apply elem_of_nil in Hin].
      exists d, ids. split_and!; [left | done | done].
    + destruct (IH Hin) as [(def & es & p & Hnode) | (d' & ids & Hd & Hrest)].
      * left. exists def, es, p. by right.
      * right. exists d', ids. split; [by right | done].
  - intros [Hin | Hin]%elem_of_app.
    + apply list_elem_of_singleton in Hin as ->. left. exists def, es, p. left.
    + destruct (IH Hin) as [(def' & es' & p' & Hnode) | (d' & ids & Hd & Hrest)].
      * left. exists def', es', p'. by right.
      * right. exists d', ids. split; [by right | done].
Qed.

Lemma applyBuild_needs_references (change : Build.t) (this : Transaction) d :
  d ∈ allReferences (Build.source change) →
  detached this !! d = None →
  (applyBuild change this).1 ≠ Normal EditResult.Applied.
Proof.
  intros Hin Hnone.
  destruct (detached this !! Build.destination change) as [ids |] eqn:Hdest.
  - rewrite applyBuild_occupied by (by rewrite Hdest). cbn. discriminate.
  - destruct this as [v R]. cbn [detached] in *.
    destruct (applyBuild_run change v R Hdest) as (nodes & ids & ->).
    pose proof (firstCondition_applied_iff v
                  (buildEvents (Build.source change)) R ∅) as Hiff.
    destruct (firstCondition v R ∅ _) as [[| |] R']; cbn [fst] in *;
      try discriminate.
    destruct Hiff as [(_ & Hpresent & _) _]; [done |].
    destruct (Hpresent d) as [x Hx]; [by rewrite buildEvents_references |].
    by rewrite Hnone in Hx.
Qed.

Section UseOnce.
Context `{EditUtilities}.

(** X15. A change adds no registry entry other than its own destination:
    every key registered after a change was registered before it, or is
    the destination of that Build or Detach. *)
Theorem dispatchChange_registry_keys (change : Change) (this this' : Transaction)
    r d :
  dispatchChange change this = (Normal r, this') →
  is_Some (detached this' !! d) →
  is_Some (detached this !! d)
  ∨ (∃ b, change = ChangeBuild b ∧ Build.destination b = d)
  ∨ (∃ c, change = ChangeDetach c ∧ Detach.destination c = Some d).
Proof.
  destruct change as [b | c | c | c | c |]; cbn [dispatchChange];
    [| | | | | discriminate].
  - destruct (detached this !! Build.destination b) as [ids |] eqn:Hdest.
    + rewrite applyBuild_occupied by (by rewrite Hdest).
      intros [= _ <-]. by left.
    + destruct this as [v R]. cbn [detached] in *.
      destruct (applyBuild_run b v R Hdest) as (nodes & ids & ->).
      pose proof (firstCondition_subseteq v (buildEvents (Build.source b)) R ∅)
        as Hsub.
      destruct (firstCondition v R ∅ _) as [[| |] R']; cbn [snd] in *;
        intros [= _ <-]; cbn [detached].
      * intros Hd. left. by eapply lookup_weaken_is_Some.
      * intros Hd. left. by eapply lookup_weaken_is_Some.
      * rewrite lookup_insert_is_Some. intros [<- | [_ Hd]].
        -- right. left. by exists b.
        -- left. by eapply lookup_weaken_is_Some.
  - unfold applyInsert. run.
    destruct (detached this !! Insert.source c); [| by intros [= _ <-]; left].
    destruct (bool_decide _); cbn; [by intros [= _ <-]; left |].
    intros [= _ <-]. cbn [detached]. intros Hd. left.
    eapply lookup_weaken_is_Some; [exact Hd | apply delete_subseteq].
  - unfold applyDetach. run.
    destruct (bool_decide _); cbn; [by intros [= _ <-]; left |].
    destruct (Detach.destination c) as [destination |] eqn:Hdest;
      [| by intros [= _ <-]; left].
    destruct (bool_decide _); cbn; [by intros [= _ <-]; left |].
    intros [= _ <-]. cbn [detached]. rewrite lookup_insert_is_Some.
    intros [<- | [_ Hd]]; [| by left]. right. right. by exists c.
  - intros Hrun Hd. left.
    assert (this' = this) as -> ; [| done].
    revert Hrun. unfold applyConstraint. run.
    repeat (match goal with |- context [if ?b then _ else _] => destruct b end;
            cbn; try (by intros [= _ ->]); try done).
  - unfold applySetValue. run.
    destruct (hasNode _ _); cbn; [| by intros [= _ <-]; left].
    destruct (getSnapshotNode _ _); cbn; [by intros [= _ <-]; left | done].
Qed.

(** X16. An applied Build keeps the registry within the view: if every id
    held in the registry named a node of the view before, it does so
    after, the new top-level ids included. *)
Theorem applyBuild_registry_in_view (change : Build.t) (this this' : Transaction) :
  registryInView this →
  dispatchChange (ChangeBuild change) this = (Normal EditResult.Applied, this') →
  registryInView this'.
Proof.
  destruct this as [v R]. cbn [dispatchChange]. intros Hinv Hrun.
  pose proof Hrun as (Hfresh & nodes & -> & Hsound & Hcomplete)
    %applyBuild_applied_inv.
  assert (∀ id, hasNode v id = true →
                hasNode (insertSnapshotNodes v nodes) id = true) as Hkeep.
  { intros id Hid. apply hasNode_true. apply hasNode_true in Hid.
    unfold insertSnapshotNodes. cbn [snapshotNodes].
    apply lookup_union_is_Some. by right. }
  intros d ids id. cbn [detached view].
  destruct (decide (d = Build.destination change)) as [-> | Hne].
  - rewrite lookup_insert_eq. intros [= <-] Hid.
    apply expandIds_elem in Hid
      as [(def & es & p & Hnode) | (d' & ids' & _ & Hd' & Hid)].
    + apply hasNode_true. unfold insertSnapshotNodes. cbn [snapshotNodes].
      apply lookup_union_is_Some. left. eexists.
      apply (Hcomplete (TreeNode id def es p) _ (occurs_here _ _ Hnode) eq_refl).
    + apply Hkeep. exact (Hinv d' ids' id Hd' Hid).
  - rewrite lookup_insert_ne by done. rewrite lookup_foldr_delete_keys.
    destruct (bool_decide _); [done |]. intros Hd Hid.
    apply Hkeep. exact (Hinv d ids id Hd Hid).
Qed.

(** X17. The top-level references of a Build are resolved before any node
    is created: on a free destination, a top-level reference that is not
    registered, or one that occurs twice at the top level, makes the
    result Malformed and leaves the view as it was, whatever identifiers
    the source holds. *)
Theorem applyBuild_top_level_references (change : Build.t) (this : Transaction) :
  detached this !! Build.destination change = None →
  (∃ d, d ∈ referencesIn (Build.source change) ∧ detached this !! d = None)
  ∨ ¬ NoDup (referencesIn (Build.source change)) →
  (dispatchChange (ChangeBuild change) this).1 = Normal EditResult.Malformed
  ∧ view (dispatchChange (ChangeBuild change) this).2 = view this.
Proof.
  destruct this as [v R]. cbn [dispatchChange detached view].
  intros Hfresh Hbad.
  destruct (applyBuild_run change v R Hfresh) as (nodes & ids & ->).
  unfold buildEvents. rewrite firstCondition_refs.
  pose proof (firstCondition_applied_iff v
                (List.map ReferTo (referencesIn (Build.source change))) R ∅)
    as Hiff.
  rewrite referencesOf_refs in Hiff.
  destruct (firstCondition v R ∅ (List.map ReferTo _)) as [[| |] R'];
    cbn [fst] in *; try done.
  exfalso. destruct Hiff as [(Hnd & Hpresent & _) _]; [done |].
  destruct Hbad as [(d & Hin & Hnone) | Hdup]; [| done].
  destruct (Hpresent d Hin) as [x Hx]. by rewrite Hnone in Hx.
Qed.

(** X18. A sequence referenced by an applied Build is consumed: it is no
    longer registered, an Insert from it is Malformed, and no Build that
    references it can be applied. *)
Theorem applyBuild_consumes (change : Build.t) (this this1 : Transaction) d :
  dispatchChange (ChangeBuild change) this = (Normal EditResult.Applied, this1) →
  d ∈ allReferences (Build.source change) →
  detached this1 !! d = None
  ∧ (∀ place,
       dispatchChange (ChangeInsert (Insert.mk d place)) this1
       = (Normal EditResult.Malformed, this1))
  ∧ (∀ next, d ∈ allReferences (Build.source next) →
       (dispatchChange (ChangeBuild next) this1).1 ≠ Normal EditResult.Applied).
Proof.
  intros Hrun Hin.
  assert (detached this1 !! d = None) as Hgone.
  { destruct this as [v R]. cbn [dispatchChange] in Hrun.
    pose proof (applyBuild_needs_references change (mkTransaction v R) d Hin)
      as Hneeds.
    rewrite Hrun in Hneeds. cbn [fst detached] in Hneeds.
    apply applyBuild_applied_inv in Hrun as (Hfresh & nodes & -> & _).
    cbn [detached].
    destruct (decide (d = Build.destination change)) as [-> | Hne].
    - by destruct (Hneeds Hfresh).
    - rewrite lookup_insert_ne by done. rewrite lookup_foldr_delete_keys.
      rewrite bool_decide_eq_true_2; [done |].
      by rewrite buildEvents_references. }
  split_and!; [exact Hgone | |].
  - intros place. cbn [dispatchChange]. unfold applyInsert. run.
    cbn [Insert.source]. by rewrite Hgone.
  - intros next Hnext. cbn [dispatchChange].
    by apply applyBuild_needs_references with d.
Qed.

(** X19. A sequence consumed by an applied Insert cannot be referenced by
    a later Build: such a Build is never applied. *)
Theorem insert_then_build (change : Insert.t) (next : Build.t)
    (this this1 : Transaction) :
  dispatchChange (ChangeInsert change) this = (Normal EditResult.Applied, this1) →
  Insert.source change ∈ allReferences (Build.source next) →
  (dispatchChange (ChangeBuild next) this1).1 ≠ Normal EditResult.Applied.
Proof.
  intros Hrun Hin. cbn [dispatchChange].
  apply applyBuild_needs_references with (Insert.source change); [done |].
  revert Hrun. cbn [dispatchChange]. unfold applyInsert. run.
  destruct (detached this !! Insert.source change) as [ids |]; [| discriminate].
  destruct (bool_decide _); cbn.
  { destruct (bool_decide _); discriminate. }
  intros [= <-]. apply lookup_delete_eq.
Qed.

End UseOnce.

(** ** Concrete instances of the further properties *)

Lemma buildOnCreateNode_keeps_this id node (σ : Transaction * BuildLocals.t) :
  (buildOnCreateNode id node σ).2.1 = σ.1.
Proof.
  destruct σ as [[v R] l]. rewrite buildOnCreateNode_run.
  destruct (bool_decide _); [done |]. by destruct (hasNode v id).
Qed.

Lemma buildOnInvalidDetachedId_keeps_this (σ : Transaction * BuildLocals.t) :
  (buildOnInvalidDetachedId σ).2.1 = σ.1.
Proof. reflexivity. Qed.

Lemma afterBuildN_registry : detached Runs.afterBuildN = {[ 1 := ["N"] ]}.
Proof. vm_compute; reflexivity. Qed.

Lemma afterBuildN_registryInView : registryInView Runs.afterBuildN.
Proof.
  intros d ids id. rewrite afterBuildN_registry.
  intros [<- <-]%lookup_singleton_Some ->%list_elem_of_singleton.
  vm_compute; reflexivity.
Qed.

Lemma applyBuild_applied_registry_witness :
  detached MoreRuns.afterBuildP !! 2 = Some ["P"]
  ∧ detached MoreRuns.afterBuildP !! 1 = None.
Proof.
  destruct (applyBuild_applied_registry (H := SampleHost.host)
              MoreRuns.buildP Runs.afterBuildN MoreRuns.afterBuildP)
    as [Hdest Hother]; [vm_compute; reflexivity |].
  split.
  - etrans; [exact Hdest | vm_compute; reflexivity].
  - etrans; [apply (Hother 1); discriminate | vm_compute; reflexivity].
Defined.

Lemma applyBuild_applied_records_witness :
  getSnapshotNode (view MoreRuns.afterBuildP) "P"
  = Some (mkSnapshotNode "P" "D" {[ "L" := ["M"; "N"] ]} (Some "x")).
Proof.
  rewrite (applyBuild_applied_records (H := SampleHost.host)
             MoreRuns.buildP Runs.afterBuildN MoreRuns.afterBuildP
             ltac:(vm_compute; reflexivity)
             "P" "D" [("L", [Runs.M'; DetachedRef 1])] (Some "x")).
  - vm_compute; reflexivity.
  - apply occurs_here. left.
Defined.

Lemma applyBuild_applied_view_witness :
  root (view MoreRuns.afterBuildP) = "R"
  ∧ getSnapshotNode (view MoreRuns.afterBuildP) "A"
    = getSnapshotNode (view Runs.afterBuildN) "A"
  ∧ hasNode (view MoreRuns.afterBuildP) "M" = true.
Proof.
  destruct (applyBuild_applied_view (H := SampleHost.host)
              MoreRuns.buildP Runs.afterBuildN MoreRuns.afterBuildP)
    as (Hroot & Hold & Hnodes); [vm_compute; reflexivity |].
  split_and!.
  - rewrite Hroot. vm_compute; reflexivity.
  - apply Hold. vm_compute; reflexivity.
  - apply Hnodes. right. vm_compute. right. left.
Defined.

Lemma createSnapshotNodesForTree_returns_witness :
  ["P"] = expandIds (detached Runs.afterBuildN) [MoreRuns.P].
Proof.
  eapply (createSnapshotNodesForTree_returns buildOnCreateNode
            buildOnInvalidDetachedId [MoreRuns.P] Runs.afterBuildN
            BuildLocals.init).
  vm_compute; reflexivity.
Defined.

Lemma createSnapshotNodesForTree_shrinks_witness :
  view (createSnapshotNodesForTree [DetachedRef 1; Runs.M'; Runs.M']
          buildOnCreateNode buildOnInvalidDetachedId
          (Runs.afterBuildN, BuildLocals.init)).2.1 = view Runs.afterBuildN
  ∧ detached (createSnapshotNodesForTree [DetachedRef 1; Runs.M'; Runs.M']
                buildOnCreateNode buildOnInvalidDetachedId
                (Runs.afterBuildN, BuildLocals.init)).2.1
    ⊆ detached Runs.afterBuildN
  ∧ ∃ resolved : list DetachedSequenceId,
      resolved `prefix_of`
        referencesOf (buildEvents [DetachedRef 1; Runs.M'; Runs.M'])
      ∧ NoDup resolved
      ∧ (∀ d, d ∈ resolved → is_Some (detached Runs.afterBuildN !! d))
      ∧ (∀ d, detached (createSnapshotNodesForTree
                          [DetachedRef 1; Runs.M'; Runs.M']
                          buildOnCreateNode buildOnInvalidDetachedId
                          (Runs.afterBuildN, BuildLocals.init)).2.1 !! d
              = if bool_decide (d ∈ resolved) then None
                else detached Runs.afterBuildN !! d)
      ∧ (∀ ids, (createSnapshotNodesForTree
                   [DetachedRef 1; Runs.M'; Runs.M']
                   buildOnCreateNode buildOnInvalidDetachedId
                   (Runs.afterBuildN, BuildLocals.init)).1
                = Normal (Some ids) →
                resolved
                = referencesOf (buildEvents [DetachedRef 1; Runs.M'; Runs.M'])).
Proof.
  apply (createSnapshotNodesForTree_shrinks buildOnCreateNode
           buildOnInvalidDetachedId buildOnCreateNode_keeps_this
           buildOnInvalidDetachedId_keeps_this
           [DetachedRef 1; Runs.M'; Runs.M']
           (Runs.afterBuildN, BuildLocals.init)).
Defined.

Lemma applyInsert_consumes_witness :
  dispatchChange (H := SampleHost.host)
    (ChangeInsert (Insert.mk 1 SampleHost.endOfRL))
    (dispatchChange (H := SampleHost.host) (ChangeInsert MoreRuns.insertN)
       Runs.afterBuildN).2
  = (Normal EditResult.Malformed,
     (dispatchChange (H := SampleHost.host) (ChangeInsert MoreRuns.insertN)
        Runs.afterBuildN).2).
Proof.
  eapply (applyInsert_consumes (H := SampleHost.host) MoreRuns.insertN
            Runs.afterBuildN).
  vm_compute; reflexivity.
Defined.

Lemma detach_then_insert_witness :
  ∃ this1,
    dispatchChange (H := SampleHost.host)
      (ChangeDetach (Detach.mk (SampleHost.rangeOf "B") (Some 1)))
      (factory SampleHost.abcTree) = (Normal EditResult.Applied, this1)
    ∧ (dispatchChange (H := SampleHost.host)
         (ChangeInsert (Insert.mk 1 (SiblingPlace "C" After))) this1).1
      = Normal EditResult.Applied
    ∧ detached (dispatchChange (H := SampleHost.host)
                  (ChangeInsert (Insert.mk 1 (SiblingPlace "C" After))) this1).2
      = ∅.
Proof.
  destruct (detach_then_insert (H := SampleHost.host) (SampleHost.rangeOf "B") 1
              (SiblingPlace "C" After) (factory SampleHost.abcTree))
    as (this1 & Hdetach & Hinsert); [vm_compute; reflexivity ..|].
  exists this1. rewrite Hinsert. by split_and!.
Defined.

Lemma build_then_insert_witness :
  ∃ this2,
    dispatchChange (H := SampleHost.host)
      (ChangeInsert (Insert.mk 2 SampleHost.startOfRL)) MoreRuns.afterBuildP
    = (Normal EditResult.Applied, this2)
    ∧ detached this2 !! 1 = None ∧ detached this2 !! 2 = None.
Proof.
  destruct (build_then_insert (H := SampleHost.host) MoreRuns.buildP
              SampleHost.startOfRL Runs.afterBuildN MoreRuns.afterBuildP)
    as (this2 & Hinsert & _ & Hregistry); [vm_compute; reflexivity ..|].
  exists this2. split_and!; [exact Hinsert | |]; rewrite Hregistry;
    vm_compute; reflexivity.
Defined.

Lemma applySetValue_last_wins_witness :
  dispatchChange (H := SampleHost.host) (ChangeSetValue (MoreRuns.setA "q"))
    (dispatchChange (H := SampleHost.host) (ChangeSetValue (MoreRuns.setA "p"))
       (factory SampleHost.abcTree)).2
  = dispatchChange (H := SampleHost.host) (ChangeSetValue (MoreRuns.setA "q"))
      (factory SampleHost.abcTree).
Proof.
  apply (applySetValue_last_wins (H := SampleHost.host) (MoreRuns.setA "p")).
  - vm_compute; reflexivity.
  - reflexivity.
Defined.

Lemma applySetValue_commute_witness :
  ∃ tb,
    dispatchChange (H := SampleHost.host) (ChangeSetValue (MoreRuns.setB "q"))
      (factory SampleHost.abcTree) = (Normal EditResult.Applied, tb)
    ∧ (dispatchChange (H := SampleHost.host) (ChangeSetValue (MoreRuns.setA "p")) tb).2
      = (dispatchChange (H := SampleHost.host) (ChangeSetValue (MoreRuns.setB "q"))
           (dispatchChange (H := SampleHost.host)
              (ChangeSetValue (MoreRuns.setA "p")) (factory SampleHost.abcTree)).2).2.
Proof.
  destruct (applySetValue_commute (H := SampleHost.host)
              (MoreRuns.setA "p") (MoreRuns.setB "q") (factory SampleHost.abcTree)
              (dispatchChange (H := SampleHost.host)
                 (ChangeSetValue (MoreRuns.setA "p")) (factory SampleHost.abcTree)).2
              (dispatchChange (H := SampleHost.host)
                 (ChangeSetValue (MoreRuns.setB "q"))
                 (dispatchChange (H := SampleHost.host)
                    (ChangeSetValue (MoreRuns.setA "p"))
                    (factory SampleHost.abcTree)).2).2)
    as (tb & Hb & Ha).
  - discriminate.
  - vm_compute; reflexivity.
  - vm_compute; reflexivity.
  - exists tb. split; [exact Hb |]. by rewrite Ha.
Defined.

Lemma applyConstraint_valid_retry_witness :
  (dispatchChange (H := SampleHost.host)
     (ChangeConstraint (Runs.lengthFive ValidRetry)) (factory SampleHost.abcTree)).1
  ≠ Normal EditResult.Invalid.
Proof.
  apply (applyConstraint_valid_retry (H := SampleHost.host)). reflexivity.
Defined.

Lemma detach_then_set_value_witness :
  dispatchChange (H := SampleHost.host) (ChangeSetValue (SetValue.mk "B" (Some "p")))
    (dispatchChange (H := SampleHost.host) (ChangeDetach MoreRuns.detachB)
       (factory SampleHost.abcTree)).2
  = (Normal EditResult.Invalid,
     (dispatchChange (H := SampleHost.host) (ChangeDetach MoreRuns.detachB)
        (factory SampleHost.abcTree)).2).
Proof.
  apply (detach_then_set_value (H := SampleHost.host) MoreRuns.detachB
           (factory SampleHost.abcTree)).
  - reflexivity.
  - vm_compute; reflexivity.
  - vm_compute. left.
Defined.

Lemma dispatchChange_registry_keys_witness :
  is_Some (detached (factory SampleHost.abcTree) !! 1)
  ∨ (∃ b, Runs.buildN = ChangeBuild b ∧ Build.destination b = 1)
  ∨ (∃ c, Runs.buildN = ChangeDetach c ∧ Detach.destination c = Some 1).
Proof.
  apply (dispatchChange_registry_keys (H := SampleHost.host) Runs.buildN
           (factory SampleHost.abcTree) Runs.afterBuildN EditResult.Applied 1).
  - vm_compute; reflexivity.
  - rewrite afterBuildN_registry, lookup_singleton_eq. by eexists.
Defined.

Lemma applyBuild_registry_in_view_witness : registryInView MoreRuns.afterBuildP.
Proof.
  apply (applyBuild_registry_in_view (H := SampleHost.host) MoreRuns.buildP
           Runs.afterBuildN MoreRuns.afterBuildP).
  - exact afterBuildN_registryInView.
  - vm_compute; reflexivity.
Defined.

Lemma applyBuild_top_level_references_witness :
  (dispatchChange (H := SampleHost.host)
     (ChangeBuild (Build.mk [DetachedRef 7; Runs.A] 1))
     (factory SampleHost.abcTree)).1 = Normal EditResult.Malformed.
Proof.
  apply (applyBuild_top_level_references (H := SampleHost.host)
           (Build.mk [DetachedRef 7; Runs.A] 1) (factory SampleHost.abcTree)).
  - reflexivity.
  - left. exists 7. split; [vm_compute; left | reflexivity].
Defined.

Lemma applyBuild_consumes_witness :
  detached MoreRuns.afterBuildP !! 1 = None
  ∧ dispatchChange (H := SampleHost.host)
      (ChangeInsert (Insert.mk 1 SampleHost.startOfRL)) MoreRuns.afterBuildP
    = (Normal EditResult.Malformed, MoreRuns.afterBuildP).
Proof.
  destruct (applyBuild_consumes (H := SampleHost.host) MoreRuns.buildP
              Runs.afterBuildN MoreRuns.afterBuildP 1)
    as (Hgone & Hinsert & _).
  - vm_compute; reflexivity.
  - vm_compute. left.
  - split; [exact Hgone | apply Hinsert].
Defined.

Lemma insert_then_build_witness :
  (dispatchChange (H := SampleHost.host) (ChangeBuild MoreRuns.buildP)
     (dispatchChange (H := SampleHost.host) (ChangeInsert MoreRuns.insertN)
        Runs.afterBuildN).2).1
  ≠ Normal EditResult.Applied.
Proof.
  apply (insert_then_build (H := SampleHost.host) MoreRuns.insertN
           MoreRuns.buildP Runs.afterBuildN).
  - vm_compute; reflexivity.
  - vm_compute. left.
Defined.

(** ** What a failing Build reports *)

Lemma firstCondition_invalid v events : ∀ registry created,
  (firstCondition v registry created events).1 = EditResult.Invalid →
  ∃ id, id ∈ creationsOf events ∧ hasNode v id = true.
Proof.
  induction events as [| [d | id] events IH]; intros registry created;
    cbn [firstCondition].
  - discriminate.
  - destruct (registry !! d); [| discriminate]. apply IH.
  - rewrite creationsOf_create. destruct (bool_decide (id ∈ created));
      [discriminate |].
    destruct (hasNode v id) eqn:Hhas.
    + intros _. exists id. split; [left | done].
    + intros (id' & Hin & Hid')%IH. exists id'. split; [by right | done].
Qed.

Lemma firstCondition_malformed v events : ∀ registry created,
  (firstCondition v registry created events).1 = EditResult.Malformed →
  ¬ NoDup (referencesOf events)
  ∨ (∃ d, d ∈ referencesOf events ∧ registry !! d = None)
  ∨ ¬ NoDup (creationsOf events)
  ∨ (∃ id, id ∈ creationsOf events ∧ id ∈ created).
Proof.
  induction events as [| [d | id] events IH]; intros registry created;
    cbn [firstCondition].
  - discriminate.
  - change (referencesOf (ReferTo d :: events)) with (d :: referencesOf events).
    change (creationsOf (ReferTo d :: events)) with (creationsOf events).
    destruct (registry !! d) as [found |] eqn:Hd.
    + intros [Hnd | [(d' & Hin & Hnone) | Hrest]]%IH.
      * left. rewrite NoDup_cons. tauto.
      * destruct (decide (d' = d)) as [-> | Hne].
        -- left. rewrite NoDup_cons. tauto.
        -- right. left. exists d'. split; [by right |].
           by rewrite lookup_delete_ne in Hnone.
      * right. right. exact Hrest.
    + intros _. right. left. exists d. split; [left | done].
  - change (referencesOf (Create id :: events)) with (referencesOf events).
    rewrite creationsOf_create.
    destruct (bool_decide (id ∈ created)) eqn:Hc.
    { apply bool_decide_eq_true in Hc. intros _. right. right. right.
      exists id. split; [left | done]. }
    destruct (hasNode v id); [discriminate |].
    intros [Hnd | [Hrefs | [Hnd | (id' & Hin & Hid')]]]%IH.
    + by left.
    + right. by left.
    + right. right. left. rewrite NoDup_cons. tauto.
    + apply elem_of_union in Hid' as [->%elem_of_singleton | Hid'].
      * right. right. left. rewrite NoDup_cons. tauto.
      * right. right. right. exists id'. split; [by right | done].
Qed.

Section BuildFailures.
Context `{EditUtilities}.

(** X20. What a failing Build reports: Invalid only when an inline
    identifier of the source already names a node of the view; Malformed
    only when the destination is taken, a detached reference of the source
    is unregistered or occurs twice, or an inline identifier occurs
    twice. *)
Theorem applyBuild_failure_reasons (change : Build.t) (this : Transaction) :
  ((dispatchChange (ChangeBuild change) this).1 = Normal EditResult.Invalid →
   ∃ id, id ∈ allIdentifiers (Build.source change)
         ∧ hasNode (view this) id = true)
  ∧ ((dispatchChange (ChangeBuild change) this).1 = Normal EditResult.Malformed →
     is_Some (detached this !! Build.destination change)
     ∨ ¬ NoDup (allReferences (Build.source change))
     ∨ (∃ d, d ∈ allReferences (Build.source change) ∧ detached this !! d = None)
     ∨ ¬ NoDup (allIdentifiers (Build.source change))).
Proof.
  cbn [dispatchChange].
  destruct (detached this !! Build.destination change) as [ids |] eqn:Hdest.
  { rewrite applyBuild_occupied by (by rewrite Hdest). cbn.
    split; [discriminate | intros _; left; eauto]. }
  destruct this as [v R]. cbn [detached view] in *.
  destruct (applyBuild_run change v R Hdest) as (nodes & ids & ->).
  pose proof (firstCondition_invalid v (buildEvents (Build.source change)) R ∅)
    as Hinvalid.
  pose proof (firstCondition_malformed v (buildEvents (Build.source change)) R ∅)
    as Hmalformed.
  setoid_rewrite (buildEvents_creations (Build.source change)) in Hinvalid.
  rewrite (buildEvents_creations (Build.source change)) in Hmalformed.
  rewrite (buildEvents_references (Build.source change)) in Hmalformed.
  setoid_rewrite (buildEvents_references (Build.source change)) in Hmalformed.
  destruct (firstCondition v R ∅ _) as [[| |] R']; cbn [fst] in *;
    (split; [try discriminate | try discriminate]).
  - intros _. right.
    destruct Hmalformed as [? | [? | [? | (id & _ & Hid)]]]; try tauto.
    by apply elem_of_empty in Hid.
  - intros _. by apply Hinvalid.
Qed.

End BuildFailures.

Lemma applyBuild_failure_reasons_witness :
  ∃ id, id ∈ allIdentifiers [Runs.N; Runs.N; Runs.A]
        ∧ hasNode SampleHost.abcTree id = true.
Proof.
  destruct (applyBuild_failure_reasons (H := SampleHost.host)
              (Build.mk [Runs.N; Runs.N; Runs.A] 1) (factory SampleHost.abcTree))
    as [Hinvalid _].
  apply Hinvalid. vm_compute; reflexivity.
Defined.

(** ** Defects *)

Section Defects.
Context `{EditUtilities}.

(** X21. With the snapshot operations and the primitives of the host
    taken as functions that return, [dispatchChange] throws in exactly two
    cases: a change whose [type] is none of the five tags (the [fail] of
    the [default] arm), and a Constraint that carries [identityHash] or
    [contentHash]. The assertion on the popped node and
    [assertNotUndefined] on the new ids never fire, and the traversal of
    a Build always ends. *)
Theorem dispatchChange_throws_iff (change : Change) (this : Transaction) :
  ((∃ msg, (dispatchChange change this).1 = Throw msg) ↔
   change = ChangeUnsupported
   ∨ ∃ c, change = ChangeConstraint c
          ∧ (Constraint.identityHash c ≠ None ∨ Constraint.contentHash c ≠ None))
  ∧ (dispatchChange change this).1 ≠ OutOfFuel.
Proof.
  destruct (dispatchChange_completes change this)
    as [(r & this' & Hrun) | [(c & msg & -> & Hhash & Hrun) | [-> Hrun]]];
    rewrite Hrun; cbn [fst].
  - split; [| discriminate]. split; [by intros [msg ?] |].
    intros [-> | (c & -> & Hhash)]; [discriminate Hrun |].
    exfalso. revert Hrun. cbn [dispatchChange]. unfold applyConstraint. run.
    destruct (Constraint.identityHash c) as [h |]; [decided; discriminate |].
    destruct (Constraint.contentHash c) as [h |]; [decided; discriminate |].
    by destruct Hhash.
  - split; [| discriminate]. split; [| by eauto]. intros _. right. by exists c.
  - split; [| discriminate]. split; [| by eauto]. intros _. by left.
Qed.

End Defects.
